(** * StringScanner: the scanner of parse-xml, embedded and verified

    Shallow embedding of [src/lib/StringScanner.ts].

    - A JavaScript string is its sequence of UTF-16 code units ([list N]).
    - A number that the scanner handles is an integer ([Z]); a value that
      may be [undefined] (an array read out of range, the character before
      the start) is an [option] or a [jsval].
    - The scanner object is a record; a method that assigns [this.charIndex]
      returns the updated record next to its result.
    - A [RegExp] is a record of its flags, its mutable [lastIndex] and a
      matcher (the compiled pattern); [exec] follows ECMAScript's
      RegExpBuiltinExec, and a method that takes a pattern returns the
      pattern's new state as well.
    - [throw] is a [completion] that carries the error.

    The file has the host functions first ([slice], [indexOf], the string
    iterator, [exec]), then the scanner method by method, then the
    vocabulary the properties are stated in, then the proofs: code points
    and storage offsets, the index mapping, the position invariant, peek and
    consume, atomic failure, contract validation, the literal matches and
    searches, and the behaviour at the end of input; then what each method
    returns and where it leaves the position (peeking, consuming by count,
    by predicate, by literal, scanning ahead for a pattern), how calls
    compose, and the JSON form of a processing instruction
    ([src/lib/XmlProcessingInstruction.ts]). *)

From Stdlib Require Import ZArith NArith List Bool Lia.
From Stdlib Require String Ascii.
Import ListNotations.
Import String.StringSyntax.
Delimit Scope string_scope with string.
Local Open Scope Z_scope.

(** ** The host language: strings, array reads, [slice], [indexOf] *)

Abbreviation jsstring := (list N) (only parsing).

(** A value of type [string | undefined]. *)
Inductive jsval :=
| Undefined
| Str (s : jsstring).

Fixpoint str_eqb (a b : jsstring) : bool :=
  match a, b with
  | [], [] => true
  | x :: a', y :: b' => N.eqb x y && str_eqb a' b'
  | _, _ => false
  end.

(** [===] on values of type [string | undefined]. *)
Definition strict_eq (a b : jsval) : bool :=
  match a, b with
  | Undefined, Undefined => true
  | Str x, Str y => str_eqb x y
  | _, _ => false
  end.

(** Truthiness of a string: every string but the empty one. *)
Definition truthy (s : jsstring) : bool :=
  match s with [] => false | _ :: _ => true end.

(** The code units of an ASCII literal. *)
Fixpoint js (s : String.string) : jsstring :=
  match s with
  | String.EmptyString => []
  | String.String a t => Ascii.N_of_ascii a :: js t
  end.

Definition emptyString : jsstring := [].

(** [a[i]] for an integer [i]: [undefined] out of range. *)
Definition get {A : Type} (a : list A) (i : Z) : option A :=
  if i <? 0 then None else nth_error a (Z.to_nat i).

(** [s[0]]. *)
Definition first_unit (s : jsstring) : jsval :=
  match s with
  | [] => Undefined
  | c :: _ => Str [c]
  end.

(** ToIntegerOrInfinity on an integer or [undefined]. *)
Definition ToIntegerOrInfinity (v : option Z) : Z :=
  match v with
  | Some n => n
  | None => 0
  end.

(** ToLength. *)
Definition ToLength (v : option Z) : Z :=
  Z.min (Z.max 0 (ToIntegerOrInfinity v)) (2 ^ 53 - 1).

(** The units of [s] from offset [from] up to offset [to]. *)
Definition substring (s : jsstring) (from to : nat) : jsstring :=
  firstn (to - from) (skipn from s).

(** [String.prototype.slice(start, end)]. *)
Definition slice (s : jsstring) (start end_ : option Z) : jsstring :=
  let len := Z.of_nat (length s) in
  let relativeStart := ToIntegerOrInfinity start in
  let from :=
    if relativeStart <? 0 then Z.max (len + relativeStart) 0
    else Z.min relativeStart len in
  let to :=
    match end_ with
    | None => len
    | Some relativeEnd =>
        if relativeEnd <? 0 then Z.max (len + relativeEnd) 0
        else Z.min relativeEnd len
    end in
  if to <=? from then [] else substring s (Z.to_nat from) (Z.to_nat to).

Fixpoint starts_with (p s : jsstring) : bool :=
  match p, s with
  | [], _ => true
  | x :: p', y :: s' => N.eqb x y && starts_with p' s'
  | _ :: _, [] => false
  end.

(** StringIndexOf: [rest] is what is left of the string at offset [i]. *)
Fixpoint StringIndexOf (search rest : jsstring) (i : nat) : option nat :=
  if starts_with search rest then Some i
  else match rest with
       | [] => None
       | _ :: rest' => StringIndexOf search rest' (S i)
       end.

(** [String.prototype.indexOf(searchString, position)]. *)
Definition indexOf (s search : jsstring) (position : option Z) : Z :=
  let len := Z.of_nat (length s) in
  let start := Z.to_nat (Z.min (Z.max (ToIntegerOrInfinity position) 0) len) in
  match StringIndexOf search (skipn start s) start with
  | Some i => Z.of_nat i
  | None => -1
  end.

(** ** Surrogates and code points *)

Definition is_high (c : N) : bool := (N.leb 55296 c && N.leb c 56319)%N.
Definition is_low (c : N) : bool := (N.leb 56320 c && N.leb c 57343)%N.

(** [[ ...string ]]: the string iterator yields one string per code point, a
    high surrogate followed by a low one being one code point. *)
Fixpoint code_points (s : jsstring) : list jsstring :=
  match s with
  | [] => []
  | c :: t =>
      match t with
      | [] => [[c]]
      | d :: t' =>
          if is_high c && is_low d then [c; d] :: code_points t'
          else [c] :: code_points t
      end
  end.

Definition underscore : N := 95%N.

(** [string.replace(/[\uD800-\uDBFF][\uDC00-\uDFFF]/g, '_')]. *)
Fixpoint replace_pairs (s : jsstring) : jsstring :=
  match s with
  | [] => []
  | c :: t =>
      match t with
      | [] => [c]
      | d :: t' =>
          if is_high c && is_low d then underscore :: replace_pairs t'
          else c :: replace_pairs t
      end
  end.

(** ** Regular expressions *)

(** A pattern object: [matcher s i] is the end offset of the pattern's match
    in [s] starting exactly at offset [i], if there is one; [groups] is the
    number of capture groups. *)
Record RegExp := mkRegExp {
  matcher : jsstring -> nat -> option nat;
  groups : nat;
  global : bool;
  sticky : bool;
  fullUnicode : bool;
  lastIndex : option Z
}.

Definition set_lastIndex (r : RegExp) (v : option Z) : RegExp :=
  {| matcher := matcher r; groups := groups r; global := global r;
     sticky := sticky r; fullUnicode := fullUnicode r; lastIndex := v |}.

(** The array [exec] returns: [index], element 0 and [length]. *)
Record MatchResult := mkMatchResult {
  index : Z;
  match0 : jsstring;
  result_length : Z
}.

Definition AdvanceStringIndex (s : jsstring) (i : nat) (unicode : bool) : nat :=
  if unicode then
    match skipn i s with
    | c :: d :: _ => if is_high c && is_low d then (i + 2)%nat else (i + 1)%nat
    | _ => (i + 1)%nat
    end
  else (i + 1)%nat.

(** The search loop of RegExpBuiltinExec, from offset [i]. *)
Fixpoint exec_loop (r : RegExp) (s : jsstring) (fuel i : nat) : option (nat * nat) :=
  match fuel with
  | O => None
  | S fuel' =>
      if (length s <? i)%nat then None
      else match matcher r s i with
           | Some e => Some (i, e)
           | None =>
               if sticky r then None
               else exec_loop r s fuel' (AdvanceStringIndex s i (fullUnicode r))
           end
  end.

(** [regex.exec(s)]: the result, and the pattern with its new [lastIndex]. *)
Definition exec (r : RegExp) (s : jsstring) : option MatchResult * RegExp :=
  let len := Z.of_nat (length s) in
  let start := if negb (global r) && negb (sticky r) then 0 else ToLength (lastIndex r) in
  let found :=
    if len <? start then None
    else exec_loop r s (S (S (length s))) (Z.to_nat start) in
  match found with
  | None =>
      (None, if global r || sticky r then set_lastIndex r (Some 0) else r)
  | Some (i, e) =>
      (Some {| index := Z.of_nat i;
               match0 := substring s i e;
               result_length := Z.of_nat (S (groups r)) |},
       if global r || sticky r then set_lastIndex r (Some (Z.of_nat e)) else r)
  end.

(** ** The scanner *)

Record StringScanner := mkStringScanner {
  charIndex : Z;
  string : jsstring;
  chars : list jsstring;
  charCount : Z;
  charsToBytes : list Z;
  multiByteMode : bool
}.

Definition set_charIndex (sc : StringScanner) (i : Z) : StringScanner :=
  {| charIndex := i; string := string sc; chars := chars sc;
     charCount := charCount sc; charsToBytes := charsToBytes sc;
     multiByteMode := multiByteMode sc |}.

(** [for (let i = 0; i < charCount; ++i) charsToBytes[i] = i]. *)
Fixpoint fill_identity (i : Z) (n : nat) : list Z :=
  match n with
  | O => []
  | S n' => i :: fill_identity (i + 1) n'
  end.

(** [charsToBytes[charIndex] = byteIndex; byteIndex += chars[charIndex].length]. *)
Fixpoint fill_offsets (byteIndex : Z) (cs : list jsstring) : list Z :=
  match cs with
  | [] => []
  | c :: cs' => byteIndex :: fill_offsets (byteIndex + Z.of_nat (length c)) cs'
  end.

Definition new_StringScanner (s : jsstring) : StringScanner :=
  let cs := code_points s in
  let n := Z.of_nat (length cs) in
  if n =? Z.of_nat (length s) then
    {| charIndex := 0; string := s; chars := cs; charCount := n;
       charsToBytes := fill_identity 0 (length cs); multiByteMode := false |}
  else
    {| charIndex := 0; string := s; chars := cs; charCount := n;
       charsToBytes := fill_offsets 0 cs; multiByteMode := true |}.

Definition isEnd (sc : StringScanner) : bool :=
  charCount sc <=? charIndex sc.

Definition _charLength (sc : StringScanner) (str : jsstring) : Z :=
  let len := Z.of_nat (length str) in
  if (len <? 2) || negb (multiByteMode sc) then len
  else Z.of_nat (length (replace_pairs str)).

Definition advance (count : Z) (sc : StringScanner) : StringScanner :=
  set_charIndex sc (Z.min (charCount sc) (charIndex sc + count)).

Definition peek (count : Z) (sc : StringScanner) : jsval :=
  if charCount sc <=? charIndex sc then Str emptyString
  else if count =? 1 then
    match get (chars sc) (charIndex sc) with
    | Some c => Str c
    | None => Undefined
    end
  else
    Str (slice (string sc)
               (get (charsToBytes sc) (charIndex sc))
               (get (charsToBytes sc) (charIndex sc + count))).

Definition consume (count : Z) (sc : StringScanner) : jsval * StringScanner :=
  let chars := peek count sc in
  (chars, advance count sc).

(** The two errors the scanner throws. *)
Inductive Error :=
| StickyFlagRequired
| GlobalFlagRequired.

Inductive completion (A : Type) :=
| Return (v : A)
| Throw (e : Error).
Arguments Return {A} v.
Arguments Throw {A} e.

Definition consumeMatch (regex : RegExp) (sc : StringScanner)
  : completion jsstring * RegExp * StringScanner :=
  if negb (sticky regex) then (Throw StickyFlagRequired, regex, sc)
  else
    let regex := set_lastIndex regex (get (charsToBytes sc) (charIndex sc)) in
    let '(result, regex) := exec regex (string sc) in
    match result with
    | None => (Return emptyString, regex, sc)
    | Some res =>
        if result_length res =? 0 then (Return emptyString, regex, sc)
        else
          let match_ := match0 res in
          (Return match_, regex, advance (_charLength sc match_) sc)
    end.

(** [while (!this.isEnd && fn(this.peek())) this.advance()]: every turn moves
    the position one step nearer to [charCount], so [fuel] turns are all the
    loop can take when [fuel] is the distance to the end. *)
Fixpoint consumeMatchFn_loop (fn : jsval -> bool) (fuel : nat) (sc : StringScanner)
  : StringScanner :=
  match fuel with
  | O => sc
  | S fuel' =>
      if negb (isEnd sc) && fn (peek 1 sc)
      then consumeMatchFn_loop fn fuel' (advance 1 sc)
      else sc
  end.

Definition consumeMatchFn (fn : jsval -> bool) (sc : StringScanner)
  : jsstring * StringScanner :=
  let startIndex := charIndex sc in
  let sc' := consumeMatchFn_loop fn (Z.to_nat (charCount sc - charIndex sc)) sc in
  (if startIndex <? charIndex sc'
   then slice (string sc') (get (charsToBytes sc') startIndex)
              (get (charsToBytes sc') (charIndex sc'))
   else emptyString, sc').

Definition consumeStringFast (stringToConsume : jsstring) (sc : StringScanner)
  : jsstring * StringScanner :=
  if strict_eq (peek 1 sc) (first_unit stringToConsume) then
    let len := Z.of_nat (length stringToConsume) in
    if len =? 1 then (stringToConsume, advance 1 sc)
    else if strict_eq (peek len sc) (Str stringToConsume)
         then (stringToConsume, advance len sc)
         else (emptyString, sc)
  else (emptyString, sc).

Definition consumeString (stringToConsume : jsstring) (sc : StringScanner)
  : jsstring * StringScanner :=
  let '(fast, sc) := consumeStringFast stringToConsume sc in
  if truthy fast then (stringToConsume, sc)
  else if negb (multiByteMode sc) then (emptyString, sc)
  else
    let len := Z.of_nat (length stringToConsume) in
    let charLengthToMatch := _charLength sc stringToConsume in
    if negb (charLengthToMatch =? len)
       && strict_eq (Str stringToConsume) (peek charLengthToMatch sc)
    then (stringToConsume, advance charLengthToMatch sc)
    else (emptyString, sc).

Definition consumeUntilMatch (regex : RegExp) (sc : StringScanner)
  : completion jsstring * RegExp * StringScanner :=
  if negb (global regex) then (Throw GlobalFlagRequired, regex, sc)
  else
    let byteIndex := get (charsToBytes sc) (charIndex sc) in
    let regex := set_lastIndex regex byteIndex in
    let '(match_, regex) := exec regex (string sc) in
    match match_ with
    | None => (Return emptyString, regex, sc)
    | Some m =>
        if match byteIndex with
           | Some b => index m =? b
           | None => false
           end
        then (Return emptyString, regex, sc)
        else
          let result := slice (string sc) byteIndex (Some (index m)) in
          (Return result, regex, advance (_charLength sc result) sc)
    end.

Definition consumeUntilString (searchString : jsstring) (sc : StringScanner)
  : jsstring * StringScanner :=
  let byteIndex := get (charsToBytes sc) (charIndex sc) in
  let matchByteIndex := indexOf (string sc) searchString byteIndex in
  if matchByteIndex <=? 0 then (emptyString, sc)
  else
    let result := slice (string sc) byteIndex (Some matchByteIndex) in
    (result, advance (_charLength sc result) sc).

Definition reset (index : Z) (sc : StringScanner) : StringScanner :=
  set_charIndex sc
    (if 0 <=? index then Z.min (charCount sc) index
     else Z.max 0 (charIndex sc + index)).

(** ** Operations as data

    One constructor per public method, so that sequences of calls can be
    quantified over. *)

Inductive op :=
| Advance (count : Z)
| Reset (index : Z)
| Peek (count : Z)
| Consume (count : Z)
| ConsumeMatch (regex : RegExp)
| ConsumeMatchFn (fn : jsval -> bool)
| ConsumeString (stringToConsume : jsstring)
| ConsumeStringFast (stringToConsume : jsstring)
| ConsumeUntilMatch (regex : RegExp)
| ConsumeUntilString (searchString : jsstring).

(** What a caller sees of a call that takes a pattern. *)
Definition returned (r : completion jsstring * RegExp * StringScanner)
  : completion jsval * StringScanner :=
  (match fst (fst r) with
   | Return v => Return (Str v)
   | Throw e => Throw e
   end, snd r).

(** What a caller sees of a call that returns a string. *)
Definition returns (r : jsstring * StringScanner)
  : completion jsval * StringScanner :=
  (Return (Str (fst r)), snd r).

(** One call: how it completes, and the scanner afterwards. *)
Definition run (o : op) (sc : StringScanner) : completion jsval * StringScanner :=
  match o with
  | Advance count => (Return Undefined, advance count sc)
  | Reset index => (Return Undefined, reset index sc)
  | Peek count => (Return (peek count sc), sc)
  | Consume count => (Return (fst (consume count sc)), snd (consume count sc))
  | ConsumeMatch regex => returned (consumeMatch regex sc)
  | ConsumeMatchFn fn => returns (consumeMatchFn fn sc)
  | ConsumeString str => returns (consumeString str sc)
  | ConsumeStringFast str => returns (consumeStringFast str sc)
  | ConsumeUntilMatch regex => returned (consumeUntilMatch regex sc)
  | ConsumeUntilString str => returns (consumeUntilString str sc)
  end.

(** A sequence of calls, first to last; a caller that catches a thrown error
    goes on with the scanner as the failed call left it. *)
Fixpoint run_all (os : list op) (sc : StringScanner) : StringScanner :=
  match os with
  | [] => sc
  | o :: os' => run_all os' (snd (run o sc))
  end.

Definition throws {A : Type} (c : completion A) : bool :=
  match c with
  | Return _ => false
  | Throw _ => true
  end.

Definition consuming (o : op) : bool :=
  match o with
  | Advance _ | Reset _ | Peek _ => false
  | _ => true
  end.

(** The counts passed to [advance] and [consume] are not negative. *)
Definition forward (o : op) : Prop :=
  match o with
  | Advance count | Consume count => 0 <= count
  | _ => True
  end.

(** ** Vocabulary of the specification *)

(** A character that occupies one storage unit. *)
Definition single (c : jsstring) : Prop := length c = 1%nat.

(** The storage offset at which the [i]-th of the characters [cs] starts
    (the length of the whole text when [i] is their number). *)
Definition byteOffset (cs : list jsstring) (i : nat) : nat :=
  length (concat (firstn i cs)).

(** The scanner of input [s] standing at position [p]. *)
Definition scanner_at (s : jsstring) (p : Z) : StringScanner :=
  set_charIndex (new_StringScanner s) p.

(** The position is within the input. *)
Definition in_range (sc : StringScanner) : Prop :=
  0 <= charIndex sc <= charCount sc.

(** [sc'] is [sc] but for the position. *)
Definition moved (sc sc' : StringScanner) : Prop :=
  sc' = set_charIndex sc (charIndex sc').

(** The storage offset of the scanner's position. *)
Definition byteIndexOf (sc : StringScanner) : Z :=
  Z.of_nat (byteOffset (chars sc) (Z.to_nat (charIndex sc))).

(** The storage offset [m] is where some character of [s] starts, or the end
    of [s]. *)
Definition char_boundary (s : jsstring) (m : Z) : Prop :=
  exists q, (q <= length (code_points s))%nat
            /\ m = Z.of_nat (byteOffset (code_points s) q).

(** [t] occurs in [s] at storage offset [k]. *)
Definition occurs_at (t s : jsstring) (k : nat) : Prop :=
  exists pre post, s = pre ++ t ++ post /\ length pre = k.

(** [m] is what a search for [t] in [s] from offset [start] must answer: the
    first offset of an occurrence at or after [start], or -1. *)
Definition first_occurrence (s t : jsstring) (start : nat) (m : Z) : Prop :=
  (m = -1 /\ forall k, (start <= k)%nat -> ~ occurs_at t s k)
  \/ (exists k, m = Z.of_nat k /\ (start <= k)%nat /\ occurs_at t s k
                /\ forall j, (start <= j < k)%nat -> ~ occurs_at t s j).

(** ** Patterns used in the scenarios: [/\d+/y] and [/\d+/g] *)

Definition is_digit (c : N) : bool := (N.leb 48 c && N.leb c 57)%N.

Fixpoint digit_run (s : jsstring) : nat :=
  match s with
  | c :: t => if is_digit c then S (digit_run t) else O
  | [] => O
  end.

Definition digits_matcher (s : jsstring) (i : nat) : option nat :=
  match digit_run (skipn i s) with
  | O => None
  | S k => Some (i + S k)%nat
  end.

Definition digits_sticky : RegExp :=
  {| matcher := digits_matcher; groups := 0; global := false; sticky := true;
     fullUnicode := false; lastIndex := Some 0 |}.

Definition digits_global : RegExp :=
  {| matcher := digits_matcher; groups := 0; global := true; sticky := false;
     fullUnicode := false; lastIndex := Some 0 |}.

(** Scenario B's input: an element whose text is U+1F4A9, a surrogate pair. *)
Definition pile_of_poo : jsstring :=
  js "<a>"%string ++ [55357; 56489]%N ++ js "</a>"%string.

(** ** Properties of single calls, named for the theorems below *)

(** Peek/consume duality at position [p] of the input [s] for the count [c]:
    a call of [peek(c)] leaves the scanner as it is, [consume(c)] returns what
    [peek(c)] returns in the same state, a string, and moves the position by
    that string's logical length. *)
Definition peek_consume_duality (s : jsstring) (p c : Z) : Prop :=
  let sc := scanner_at s p in
  snd (run (Peek c) sc) = sc
  /\ fst (consume c sc) = peek c sc
  /\ exists text,
       peek c sc = Str text
       /\ _charLength sc text = Z.of_nat (length (code_points text))
       /\ charIndex (snd (consume c sc)) = p + _charLength sc text.

(** The call [o] made in the state [sc] is atomic on failure: if it is a
    consuming call and returns the empty string, the scanner is as before. *)
Definition atomic_failure (o : op) (sc : StringScanner) : Prop :=
  consuming o = true ->
  fst (run o sc) = Return (Str emptyString) ->
  snd (run o sc) = sc.

(** The position is within the input after the calls [os] on a fresh scanner
    of [s]. *)
Definition position_invariant (s : jsstring) (os : list op) : Prop :=
  in_range (run_all os (new_StringScanner s)).

(** Literal scan-ahead for the search string [t] in the state [sc]: with [b]
    the storage offset of the position and [m] the first occurrence of [t] at
    or after [b] (or -1), an occurrence after [b] is consumed up to, the
    position ending exactly on it; otherwise nothing is consumed. *)
Definition literal_scan_ahead (sc : StringScanner) (t : jsstring) : Prop :=
  let b := byteIndexOf sc in
  let m := indexOf (string sc) t (Some b) in
  let r := fst (consumeUntilString t sc) in
  let sc' := snd (consumeUntilString t sc) in
  first_occurrence (string sc) t (Z.to_nat b) m
  /\ (b < m ->
      r = slice (string sc) (Some b) (Some m)
      /\ sc' = set_charIndex sc (charIndex sc')
      /\ charIndex sc < charIndex sc' <= charCount sc
      /\ byteIndexOf sc' = m)
  /\ (m <= b -> r = emptyString /\ sc' = sc).

(** ** Further vocabulary *)

(** The characters of [s] from position [p] on. *)
Definition chars_from (s : jsstring) (p : Z) : list jsstring :=
  skipn (Z.to_nat p) (code_points s).

(** The position never passes the end, and the end is not negative. *)
Definition bounded_above (sc : StringScanner) : Prop :=
  0 <= charCount sc /\ charIndex sc <= charCount sc.

(** The characters at the head of [cs] that the predicate [fn] accepts. *)
Fixpoint accepted (fn : jsval -> bool) (cs : list jsstring) : list jsstring :=
  match cs with
  | [] => []
  | c :: cs' => if fn (Str c) then c :: accepted fn cs' else []
  end.

(** The literal [L] is not empty and is made of the first characters of [s]
    at position [p], whole ones. *)
Definition literal_at (s : jsstring) (p : Z) (L : jsstring) : Prop :=
  L <> [] /\ exists k, L = concat (firstn k (chars_from s p)).

(** The calls that return the text they pass over: [consume] with a count
    that is not negative, and the predicate and literal matches. *)
Definition plain (o : op) : Prop :=
  match o with
  | Consume count => 0 <= count
  | ConsumeMatchFn _ | ConsumeString _ | ConsumeStringFast _ => True
  | _ => False
  end.

(** The string a call returns (empty when it returns none). *)
Definition output (o : op) (sc : StringScanner) : jsstring :=
  match fst (run o sc) with
  | Return (Str text) => text
  | _ => emptyString
  end.

(** The strings a sequence of calls returns, one after the other. *)
Fixpoint transcript (os : list op) (sc : StringScanner) : jsstring :=
  match os with
  | [] => []
  | o :: os' => output o sc ++ transcript os' (snd (run o sc))
  end.

(** Searching [s] from offset [b], the pattern [r] first matches at offset
    [i], up to offset [e]. *)
Definition first_match (r : RegExp) (s : jsstring) (b i e : nat) : Prop :=
  (b <= i <= length s)%nat
  /\ matcher r s i = Some e
  /\ forall j, (b <= j < i)%nat -> matcher r s j = None.

(** The pattern [r] matches nowhere in [s] from offset [b] on. *)
Definition no_match (r : RegExp) (s : jsstring) (b : nat) : Prop :=
  forall j, (b <= j <= length s)%nat -> matcher r s j = None.

(** ** XmlProcessingInstruction

    [src/lib/XmlProcessingInstruction.ts]. The class extends [XmlNode], which
    is not among the sources: what [XmlNode.prototype.toJSON] returns for a
    node, the constant [XmlNode.TYPE_PROCESSING_INSTRUCTION] and the values
    of a JSON object are taken as parameters. An object is the list of its
    properties in insertion order. *)

Module ProcessingInstruction.

Section Node.

Variable value : Type.
Variable of_string : jsstring -> value.
Variable TYPE_PROCESSING_INSTRUCTION : value.

Definition object : Type := list (String.string * value).

(** [o[key]]. *)
Fixpoint get_property (o : object) (key : String.string) : option value :=
  match o with
  | [] => None
  | (k, v) :: o' => if String.eqb k key then Some v else get_property o' key
  end.

(** [o[key] = v]: an own property keeps its place, a new one goes last. *)
Fixpoint set_property (o : object) (key : String.string) (v : value) : object :=
  match o with
  | [] => [(key, v)]
  | (k, w) :: o' =>
      if String.eqb k key then (k, v) :: o'
      else (k, w) :: set_property o' key v
  end.

(** [Object.assign(target, source)]. *)
Definition Object_assign (target source : object) : object :=
  fold_left (fun t kv => set_property t (fst kv) (snd kv)) source target.

Record XmlProcessingInstruction := mkXmlProcessingInstruction {
  content : jsstring;
  name : jsstring
}.

(** [new XmlProcessingInstruction(name, content = '')]. *)
Definition new_XmlProcessingInstruction (name : jsstring) (content : option jsstring)
  : XmlProcessingInstruction :=
  {| content := match content with Some c => c | None => emptyString end;
     name := name |}.

Variable XmlNode_toJSON : XmlProcessingInstruction -> object.

Definition type (this : XmlProcessingInstruction) : value :=
  TYPE_PROCESSING_INSTRUCTION.

Definition toJSON (this : XmlProcessingInstruction) : object :=
  Object_assign (XmlNode_toJSON this)
    [("name"%string, of_string (name this));
     ("content"%string, of_string (content this))].

End Node.

End ProcessingInstruction.

(** * Proofs *)

(** ** Code points *)

Section CodePoints.

Lemma code_points_cases (P : jsstring -> Prop) :
  P [] ->
  (forall c, P [c]) ->
  (forall c d t, is_high c && is_low d = true -> P t -> P (c :: d :: t)) ->
  (forall c d t, is_high c && is_low d = false -> P (d :: t) -> P (c :: d :: t)) ->
  forall s, P s.
Proof.
  intros Hnil Hone Hpair Hsingle s.
  enough (H : P s /\ forall c, P (c :: s)) by apply H.
  induction s as [|d t [IHt IHc]]; split; auto.
  intro c. destruct (is_high c && is_low d) eqn:E; auto.
Qed.

Lemma code_points_pair c d t :
  is_high c && is_low d = true ->
  code_points (c :: d :: t) = [c; d] :: code_points t.
Proof. intro E. simpl. now rewrite E. Qed.

Lemma code_points_single c d t :
  is_high c && is_low d = false ->
  code_points (c :: d :: t) = [c] :: code_points (d :: t).
Proof. intro E. cbn [code_points]. now rewrite E. Qed.

Lemma concat_code_points s : concat (code_points s) = s.
Proof.
  induction s using code_points_cases; try reflexivity.
  - rewrite code_points_pair by assumption. simpl. now rewrite IHs.
  - rewrite code_points_single by assumption.
    change (concat ([c] :: ?l)) with (c :: concat l). now rewrite IHs.
Qed.

Lemma code_points_length_le s : (length (code_points s) <= length s)%nat.
Proof.
  induction s using code_points_cases.
  - simpl; lia.
  - simpl; lia.
  - rewrite code_points_pair by assumption. simpl. lia.
  - rewrite code_points_single by assumption. simpl in *. lia.
Qed.

Lemma code_points_all_single s :
  length (code_points s) = length s -> Forall single (code_points s).
Proof.
  induction s using code_points_cases; intro L.
  - constructor.
  - repeat constructor.
  - rewrite code_points_pair in L by assumption. simpl in L.
    pose proof (code_points_length_le s). lia.
  - rewrite code_points_single in * by assumption. simpl in L.
    constructor; [reflexivity | apply IHs; simpl; lia].
Qed.

Lemma code_points_nonempty s : Forall (fun c => c <> []) (code_points s).
Proof.
  induction s using code_points_cases.
  - constructor.
  - repeat constructor. discriminate.
  - rewrite code_points_pair by assumption. constructor; [discriminate | assumption].
  - rewrite code_points_single by assumption. constructor; [discriminate | assumption].
Qed.

Lemma replace_pairs_pair c d t :
  is_high c && is_low d = true ->
  replace_pairs (c :: d :: t) = underscore :: replace_pairs t.
Proof. intro E. simpl. now rewrite E. Qed.

Lemma replace_pairs_single c d t :
  is_high c && is_low d = false ->
  replace_pairs (c :: d :: t) = c :: replace_pairs (d :: t).
Proof. intro E. cbn [replace_pairs]. now rewrite E. Qed.

Lemma replace_pairs_length s :
  length (replace_pairs s) = length (code_points s).
Proof.
  induction s using code_points_cases; try reflexivity.
  - rewrite code_points_pair, replace_pairs_pair by assumption.
    cbn [length]. now rewrite IHs.
  - rewrite code_points_single, replace_pairs_single by assumption.
    cbn [length]. now rewrite IHs.
Qed.

End CodePoints.

(** ** Storage offsets and slices *)

Section Offsets.

Lemma fill_offsets_length b cs : length (fill_offsets b cs) = length cs.
Proof. revert b. induction cs; intro b; simpl; auto. Qed.

Lemma fill_offsets_nth cs : forall b i,
  (i < length cs)%nat ->
  nth_error (fill_offsets b cs) i = Some (b + Z.of_nat (byteOffset cs i)).
Proof.
  unfold byteOffset.
  induction cs as [|c cs IH]; intros b i Hi; simpl in Hi; [lia|].
  destruct i as [|i]; simpl.
  - f_equal. lia.
  - rewrite IH by lia. f_equal. rewrite length_app. lia.
Qed.

Lemma fill_identity_offsets cs : forall b,
  Forall single cs -> fill_identity b (length cs) = fill_offsets b cs.
Proof.
  induction cs as [|c cs IH]; intros b Hs; simpl; auto.
  inversion Hs as [|? ? Hc Hcs]; subst. rewrite Hc. f_equal. now apply IH.
Qed.

Lemma byteOffset_0 cs : byteOffset cs 0 = 0%nat.
Proof. reflexivity. Qed.

Lemma byteOffset_cons c cs i :
  byteOffset (c :: cs) (S i) = (length c + byteOffset cs i)%nat.
Proof. unfold byteOffset. simpl. now rewrite length_app. Qed.

Lemma byteOffset_add cs : forall i k,
  byteOffset cs (i + k) = (byteOffset cs i + byteOffset (skipn i cs) k)%nat.
Proof.
  induction cs as [|c cs IH]; intros i k.
  - unfold byteOffset. rewrite skipn_nil, !firstn_nil. reflexivity.
  - destruct i as [|i]; [reflexivity|].
    change (S i + k)%nat with (S (i + k)). rewrite !byteOffset_cons, IH.
    simpl skipn. lia.
Qed.

Lemma byteOffset_all cs i :
  (length cs <= i)%nat -> byteOffset cs i = length (concat cs).
Proof. intro H. unfold byteOffset. now rewrite firstn_all2. Qed.

Lemma byteOffset_mono cs i j :
  (i <= j)%nat -> (byteOffset cs i <= byteOffset cs j)%nat.
Proof.
  intro H. replace j with (i + (j - i))%nat by lia. rewrite byteOffset_add. lia.
Qed.

Lemma byteOffset_le cs i : (byteOffset cs i <= length (concat cs))%nat.
Proof.
  destruct (Nat.le_gt_cases (length cs) i) as [H|H].
  - rewrite byteOffset_all; auto.
  - rewrite <- (byteOffset_all cs (length cs)) by lia. apply byteOffset_mono. lia.
Qed.

Lemma firstn_byteOffset cs : forall i,
  firstn (byteOffset cs i) (concat cs) = concat (firstn i cs).
Proof.
  induction cs as [|c cs IH]; intro i.
  - unfold byteOffset. now rewrite !firstn_nil.
  - destruct i as [|i]; [reflexivity|].
    rewrite byteOffset_cons. simpl. rewrite firstn_app.
    rewrite firstn_all2 by lia. f_equal.
    replace (length c + byteOffset cs i - length c)%nat with (byteOffset cs i) by lia.
    apply IH.
Qed.

Lemma skipn_byteOffset cs : forall i,
  skipn (byteOffset cs i) (concat cs) = concat (skipn i cs).
Proof.
  induction cs as [|c cs IH]; intro i.
  - unfold byteOffset. now rewrite firstn_nil, !skipn_nil.
  - destruct i as [|i]; [reflexivity|].
    rewrite byteOffset_cons. simpl. rewrite skipn_app.
    rewrite skipn_all2 by lia. simpl.
    replace (length c + byteOffset cs i - length c)%nat with (byteOffset cs i) by lia.
    apply IH.
Qed.

Lemma substring_chars cs i k :
  substring (concat cs) (byteOffset cs i) (byteOffset cs (i + k))
  = concat (firstn k (skipn i cs)).
Proof.
  unfold substring. rewrite skipn_byteOffset, byteOffset_add.
  match goal with
  | |- firstn ?n _ = _ => replace n with (byteOffset (skipn i cs) k) by lia
  end.
  apply firstn_byteOffset.
Qed.

Lemma slice_chars cs i k :
  slice (concat cs) (Some (Z.of_nat (byteOffset cs i)))
        (Some (Z.of_nat (byteOffset cs (i + k))))
  = concat (firstn k (skipn i cs)).
Proof.
  unfold slice. cbn [ToIntegerOrInfinity].
  pose proof (byteOffset_le cs i) as Hi.
  pose proof (byteOffset_le cs (i + k)) as Hk.
  pose proof (byteOffset_add cs i k) as Ha.
  destruct (Z.ltb_spec (Z.of_nat (byteOffset cs i)) 0); [lia|].
  destruct (Z.ltb_spec (Z.of_nat (byteOffset cs (i + k))) 0); [lia|].
  rewrite !Z.min_l by lia. rewrite !Nat2Z.id.
  destruct (Z.leb_spec (Z.of_nat (byteOffset cs (i + k))) (Z.of_nat (byteOffset cs i))).
  - symmetry. apply length_zero_iff_nil.
    change (byteOffset (skipn i cs) k = 0%nat). lia.
  - apply substring_chars.
Qed.

Lemma slice_chars_end cs i :
  slice (concat cs) (Some (Z.of_nat (byteOffset cs i))) None
  = concat (skipn i cs).
Proof.
  unfold slice. cbn [ToIntegerOrInfinity].
  pose proof (byteOffset_le cs i) as Hi.
  destruct (Z.ltb_spec (Z.of_nat (byteOffset cs i)) 0); [lia|].
  rewrite Z.min_l by lia. rewrite !Nat2Z.id.
  rewrite <- skipn_byteOffset.
  destruct (Z.leb_spec (Z.of_nat (length (concat cs))) (Z.of_nat (byteOffset cs i))).
  - rewrite skipn_all2 by lia. reflexivity.
  - unfold substring. apply firstn_all2. rewrite length_skipn. lia.
Qed.

End Offsets.

Section Construction.

Variable s : jsstring.

Lemma new_charIndex : charIndex (new_StringScanner s) = 0.
Proof. unfold new_StringScanner. now destruct (_ =? _). Qed.

Lemma new_string : string (new_StringScanner s) = s.
Proof. unfold new_StringScanner. now destruct (_ =? _). Qed.

Lemma new_chars : chars (new_StringScanner s) = code_points s.
Proof. unfold new_StringScanner. now destruct (_ =? _). Qed.

Lemma new_charCount :
  charCount (new_StringScanner s) = Z.of_nat (length (code_points s)).
Proof. unfold new_StringScanner. now destruct (_ =? _). Qed.

Lemma new_multiByteMode :
  multiByteMode (new_StringScanner s)
  = negb (Z.of_nat (length (code_points s)) =? Z.of_nat (length s)).
Proof. unfold new_StringScanner. now destruct (_ =? _). Qed.

Lemma new_charsToBytes :
  charsToBytes (new_StringScanner s) = fill_offsets 0 (code_points s).
Proof.
  unfold new_StringScanner.
  destruct (Z.eqb_spec (Z.of_nat (length (code_points s))) (Z.of_nat (length s)));
    simpl; [|reflexivity].
  apply fill_identity_offsets, code_points_all_single. lia.
Qed.

Lemma get_charsToBytes i :
  0 <= i < charCount (new_StringScanner s) ->
  get (charsToBytes (new_StringScanner s)) i
  = Some (Z.of_nat (byteOffset (code_points s) (Z.to_nat i))).
Proof.
  rewrite new_charCount, new_charsToBytes. intro H. unfold get.
  destruct (Z.ltb_spec i 0); [lia|].
  rewrite fill_offsets_nth by lia. reflexivity.
Qed.

Lemma get_charsToBytes_out i :
  i < 0 \/ charCount (new_StringScanner s) <= i ->
  get (charsToBytes (new_StringScanner s)) i = None.
Proof.
  rewrite new_charCount, new_charsToBytes. intro H. unfold get.
  destruct (Z.ltb_spec i 0); [reflexivity|].
  apply nth_error_None. rewrite fill_offsets_length. lia.
Qed.

End Construction.

(** ** Sub-ranges of the characters *)

Section Canonical.

Lemma code_points_head d t :
  exists c cs, code_points (d :: t) = (d :: c) :: cs.
Proof.
  destruct t as [|e t]; [now exists [], []|].
  destruct (is_high d && is_low e) eqn:E.
  - rewrite code_points_pair by assumption. eauto.
  - rewrite code_points_single by assumption. eauto.
Qed.

Lemma code_points_firstn s : forall k,
  code_points (concat (firstn k (code_points s))) = firstn k (code_points s).
Proof.
  induction s as [|c|c d t E IH|c d t E IH] using code_points_cases; intro k.
  - now rewrite firstn_nil.
  - destruct k as [|[|k]]; reflexivity.
  - rewrite code_points_pair by assumption.
    destruct k as [|k]; [reflexivity|].
    cbn [firstn concat app]. rewrite code_points_pair by assumption.
    now rewrite IH.
  - rewrite code_points_single by assumption.
    destruct k as [|k]; [reflexivity|].
    cbn [firstn concat app]. specialize (IH k).
    destruct (code_points_head d t) as (c' & cs & E'). rewrite E' in *.
    destruct k as [|k]; [reflexivity|].
    cbn [firstn concat app] in *.
    rewrite code_points_single by assumption. now rewrite IH.
Qed.

Lemma code_points_skipn s : forall k,
  code_points (concat (skipn k (code_points s))) = skipn k (code_points s).
Proof.
  induction s as [|c|c d t E IH|c d t E IH] using code_points_cases; intro k.
  - now rewrite skipn_nil.
  - destruct k as [|[|k]]; reflexivity.
  - destruct k as [|k]; [cbn [skipn]; now rewrite concat_code_points|].
    rewrite code_points_pair by assumption. apply IH.
  - destruct k as [|k]; [cbn [skipn]; now rewrite concat_code_points|].
    rewrite code_points_single by assumption. apply IH.
Qed.

Lemma code_points_range s i k :
  code_points (concat (firstn k (skipn i (code_points s))))
  = firstn k (skipn i (code_points s)).
Proof.
  rewrite <- (code_points_skipn s i). apply code_points_firstn.
Qed.

Lemma single_byteOffset cs : forall i,
  Forall single cs -> byteOffset cs i = length (firstn i cs).
Proof.
  induction cs as [|c cs IH]; intros i Hs.
  - unfold byteOffset. now rewrite firstn_nil.
  - destruct i as [|i]; [reflexivity|].
    inversion Hs as [|? ? Hc Hcs]; subst.
    rewrite byteOffset_cons, IH by assumption. rewrite Hc. reflexivity.
Qed.

Lemma Forall_skipn' {A} (P : A -> Prop) l : forall i,
  Forall P l -> Forall P (skipn i l).
Proof.
  induction l as [|a l IH]; intros [|i] H; simpl; auto.
  inversion H; auto.
Qed.

Lemma charLength_multi sc r :
  multiByteMode sc = true ->
  _charLength sc r = Z.of_nat (length (code_points r)).
Proof.
  intro M. unfold _charLength. rewrite M, orb_false_r.
  destruct (Z.ltb_spec (Z.of_nat (length r)) 2).
  - destruct r as [|a [|b r]]; simpl in *; try reflexivity; lia.
  - now rewrite replace_pairs_length.
Qed.

Lemma charLength_range s p i k :
  _charLength (scanner_at s p) (concat (firstn k (skipn i (code_points s))))
  = Z.of_nat (length (firstn k (skipn i (code_points s)))).
Proof.
  destruct (multiByteMode (scanner_at s p)) eqn:M.
  - rewrite charLength_multi by assumption. now rewrite code_points_range.
  - unfold _charLength. rewrite M, orb_true_r.
    f_equal. change (byteOffset (skipn i (code_points s)) k = length (firstn k (skipn i (code_points s)))).
    apply single_byteOffset, Forall_skipn', code_points_all_single.
    cbn [scanner_at set_charIndex multiByteMode] in M.
    rewrite new_multiByteMode in M.
    apply negb_false_iff, Z.eqb_eq in M. lia.
Qed.

End Canonical.

Section Peek.

Variable s : jsstring.
Let cs := code_points s.
Let n := charCount (new_StringScanner s).

Lemma slice_code_points i k :
  slice s (Some (Z.of_nat (byteOffset cs i)))
          (Some (Z.of_nat (byteOffset cs (i + k))))
  = concat (firstn k (skipn i cs)).
Proof.
  pose proof (slice_chars cs i k) as H. subst cs.
  now rewrite concat_code_points in H.
Qed.

Lemma slice_code_points_end i :
  slice s (Some (Z.of_nat (byteOffset cs i))) None = concat (skipn i cs).
Proof.
  pose proof (slice_chars_end cs i) as H. subst cs.
  now rewrite concat_code_points in H.
Qed.

Lemma peek_chars p c :
  0 <= p <= n -> 0 <= c ->
  peek c (scanner_at s p)
  = Str (concat (firstn (Z.to_nat c) (skipn (Z.to_nat p) cs))).
Proof.
  intros Hp Hc. unfold peek, scanner_at. cbn [set_charIndex charIndex charCount chars charsToBytes string].
  fold n. rewrite new_chars, new_string. fold cs.
  assert (Hn : n = Z.of_nat (length cs)) by apply new_charCount.
  destruct (Z.leb_spec n p).
  - rewrite skipn_all2 by lia. now rewrite firstn_nil.
  - destruct (Z.eqb_spec c 1) as [->|Hc1].
    + unfold get. destruct (Z.ltb_spec p 0); [lia|].
      destruct (nth_error cs (Z.to_nat p)) as [ch|] eqn:E.
      * apply nth_error_split in E. destruct E as (l1 & l2 & E & L).
        rewrite E, <- L. rewrite skipn_app, skipn_all, Nat.sub_diag. simpl.
        now rewrite app_nil_r.
      * apply nth_error_None in E. lia.
    + f_equal. rewrite get_charsToBytes by (fold n; lia).
      destruct (Z.ltb_spec (p + c) n).
      * rewrite get_charsToBytes by (fold n; lia).
        replace (Z.to_nat (p + c)) with (Z.to_nat p + Z.to_nat c)%nat by lia.
        apply slice_code_points.
      * rewrite get_charsToBytes_out by (fold n; lia).
        rewrite slice_code_points_end. rewrite firstn_all2; [reflexivity|].
        rewrite length_skipn. lia.
Qed.

End Peek.

Section Ranges.

Variable s : jsstring.
Let cs := code_points s.
Let n := charCount (new_StringScanner s).

Lemma slice_range p q :
  0 <= p < n -> p <= q ->
  slice s (get (charsToBytes (new_StringScanner s)) p)
          (get (charsToBytes (new_StringScanner s)) q)
  = concat (firstn (Z.to_nat (q - p)) (skipn (Z.to_nat p) cs)).
Proof.
  intros Hp Hq.
  assert (Hn : n = Z.of_nat (length cs)) by apply new_charCount.
  rewrite get_charsToBytes by (fold n; lia).
  destruct (Z.ltb_spec q n).
  - rewrite get_charsToBytes by (fold n; lia).
    replace (Z.to_nat q) with (Z.to_nat p + Z.to_nat (q - p))%nat by lia.
    apply slice_code_points.
  - rewrite get_charsToBytes_out by (fold n; lia).
    fold cs. rewrite slice_code_points_end. rewrite firstn_all2; [reflexivity|].
    rewrite length_skipn. lia.
Qed.

Lemma nth_error_range (i : nat) c :
  nth_error cs i = Some c -> firstn 1 (skipn i cs) = [c].
Proof.
  intro E. apply nth_error_split in E. destruct E as (l1 & l2 & E & L).
  rewrite E, <- L. now rewrite skipn_app, skipn_all, Nat.sub_diag.
Qed.

Lemma byteOffset_succ (i : nat) c :
  nth_error cs i = Some c ->
  byteOffset cs (i + 1) = (byteOffset cs i + length c)%nat.
Proof.
  intro E. rewrite byteOffset_add. f_equal. unfold byteOffset.
  rewrite (nth_error_range _ _ E). simpl. now rewrite app_nil_r.
Qed.

Lemma range_nonempty (i k : nat) :
  (i < length cs)%nat -> (0 < k)%nat ->
  concat (firstn k (skipn i cs)) <> [].
Proof.
  intros Hi Hk.
  destruct (nth_error cs i) as [c|] eqn:E; [|apply nth_error_None in E; lia].
  pose proof (code_points_nonempty s) as NE. fold cs in NE.
  rewrite Forall_forall in NE. pose proof (NE c (nth_error_In _ _ E)) as Hc.
  apply nth_error_split in E. destruct E as (l1 & l2 & E & L).
  rewrite E, <- L. rewrite skipn_app, skipn_all, Nat.sub_diag. simpl.
  destruct k as [|k]; [lia|]. simpl. destruct c; [congruence | discriminate].
Qed.

End Ranges.

(** ** The index mapping *)

(** C1. Index-mapping correctness: for every input the scanner holds the
    code-point decomposition of the input, one offset per character, the first
    being 0, consecutive offsets differing by the storage length of the
    character between them (so they never decrease), the slice between
    consecutive offsets (to the end of the input for the last character, the
    next entry being [undefined]) being that character; and [multiByteMode]
    is true exactly when the number of characters differs from the storage
    length of the input. *)
Theorem index_mapping_correct (s : jsstring) :
  let sc := new_StringScanner s in
  string sc = s
  /\ chars sc = code_points s
  /\ concat (chars sc) = s
  /\ charCount sc = Z.of_nat (length (chars sc))
  /\ length (charsToBytes sc) = length (chars sc)
  /\ (0 < charCount sc -> get (charsToBytes sc) 0 = Some 0)
  /\ (forall i, 0 <= i -> i + 1 < charCount sc ->
        exists b b' c,
          get (charsToBytes sc) i = Some b
          /\ get (charsToBytes sc) (i + 1) = Some b'
          /\ get (chars sc) i = Some c
          /\ b <= b' /\ b' - b = Z.of_nat (length c))
  /\ (forall i, 0 <= i < charCount sc ->
        exists c,
          get (chars sc) i = Some c
          /\ slice (string sc) (get (charsToBytes sc) i)
                   (get (charsToBytes sc) (i + 1)) = c)
  /\ (multiByteMode sc = true <-> charCount sc <> Z.of_nat (length (string sc))).
Proof.
  cbv zeta.
  rewrite new_string, new_chars, new_charsToBytes, new_multiByteMode.
  pose proof (new_charCount s) as Hn. rewrite Hn.
  assert (Hget : forall i, 0 <= i < Z.of_nat (length (code_points s)) ->
            exists c, get (code_points s) i = Some c
                      /\ nth_error (code_points s) (Z.to_nat i) = Some c).
  { intros i Hi. unfold get. destruct (Z.ltb_spec i 0); [lia|].
    destruct (nth_error (code_points s) (Z.to_nat i)) as [c|] eqn:E; eauto.
    apply nth_error_None in E. lia. }
  repeat split.
  - apply concat_code_points.
  - apply fill_offsets_length.
  - intro H. rewrite <- new_charsToBytes. rewrite get_charsToBytes by lia. reflexivity.
  - intros i H0 H1. rewrite <- new_charsToBytes.
    rewrite !get_charsToBytes by lia.
    destruct (Hget i ltac:(lia)) as (c & G & E).
    exists (Z.of_nat (byteOffset (code_points s) (Z.to_nat i))),
      (Z.of_nat (byteOffset (code_points s) (Z.to_nat (i + 1)))), c.
    replace (Z.to_nat (i + 1)) with (Z.to_nat i + 1)%nat by lia.
    rewrite (byteOffset_succ s _ _ E).
    repeat split; auto; lia.
  - intros i Hi. destruct (Hget i Hi) as (c & G & E). exists c. split; [exact G|].
    rewrite <- new_charsToBytes. rewrite slice_range by lia.
    replace (Z.to_nat (i + 1 - i)) with 1%nat by lia.
    rewrite (nth_error_range s _ _ E). simpl. apply app_nil_r.
  - intros H E. apply negb_true_iff, Z.eqb_neq in H. lia.
  - intro H. apply negb_true_iff, Z.eqb_neq. lia.
Qed.

(** ** Moving the position *)

Ltac split_ifs :=
  repeat match goal with
         | |- context [if ?b then _ else _] => destruct b; simpl
         end.

Section Moves.

Lemma set_charIndex_id sc : set_charIndex sc (charIndex sc) = sc.
Proof. now destruct sc. Qed.

Lemma advance_0 sc : charIndex sc <= charCount sc -> advance 0 sc = sc.
Proof.
  intro H. unfold advance. rewrite Z.add_0_r, Z.min_r by lia.
  apply set_charIndex_id.
Qed.

Lemma charLength_nil sc : _charLength sc [] = 0.
Proof. reflexivity. Qed.

Lemma charLength_nonneg sc r : 0 <= _charLength sc r.
Proof. unfold _charLength. destruct (_ || _); lia. Qed.

Lemma advance_in_range k sc :
  0 <= k -> in_range sc -> in_range (advance k sc).
Proof. unfold in_range, advance. simpl. lia. Qed.

Lemma reset_in_range i sc : in_range sc -> in_range (reset i sc).
Proof.
  unfold in_range, reset. simpl. destruct (Z.leb_spec 0 i); lia.
Qed.

Lemma loop_in_range fn : forall fuel sc,
  in_range sc -> in_range (consumeMatchFn_loop fn fuel sc).
Proof.
  induction fuel as [|fuel IH]; intros sc H; simpl; auto.
  destruct (negb (isEnd sc) && fn (peek 1 sc)); auto.
  apply IH, advance_in_range; [lia | assumption].
Qed.

Lemma moved_refl sc : moved sc sc.
Proof. unfold moved. symmetry. apply set_charIndex_id. Qed.

Lemma moved_set sc i : moved sc (set_charIndex sc i).
Proof. reflexivity. Qed.

Lemma moved_trans a b c : moved a b -> moved b c -> moved a c.
Proof. unfold moved. intros H1 H2. rewrite H2. rewrite H1 at 1. reflexivity. Qed.

Lemma loop_moved fn : forall fuel sc, moved sc (consumeMatchFn_loop fn fuel sc).
Proof.
  induction fuel as [|fuel IH]; intro sc; simpl; [apply moved_refl|].
  destruct (negb (isEnd sc) && fn (peek 1 sc)); [|apply moved_refl].
  eapply moved_trans; [|apply IH]. apply moved_set.
Qed.

Lemma loop_forward fn : forall fuel sc,
  charIndex sc <= charIndex (consumeMatchFn_loop fn fuel sc).
Proof.
  induction fuel as [|fuel IH]; intro sc; simpl; [lia|].
  destruct (negb (isEnd sc) && fn (peek 1 sc)) eqn:E; [|lia].
  apply andb_prop in E. destruct E as [E _].
  apply negb_true_iff in E. unfold isEnd in E. apply Z.leb_gt in E.
  specialize (IH (advance 1 sc)). simpl in IH. lia.
Qed.

(** The loop stops only where its condition fails: the fuel that
    [consumeMatchFn] gives it is never what ends it. *)
Lemma loop_exit fn : forall fuel sc,
  (Z.to_nat (charCount sc - charIndex sc) <= fuel)%nat ->
  negb (isEnd (consumeMatchFn_loop fn fuel sc))
  && fn (peek 1 (consumeMatchFn_loop fn fuel sc)) = false.
Proof.
  induction fuel as [|fuel IH]; intros sc H; simpl.
  - unfold isEnd. destruct (Z.leb_spec (charCount sc) (charIndex sc)); [reflexivity | lia].
  - destruct (negb (isEnd sc) && fn (peek 1 sc)) eqn:E; [|exact E].
    apply IH. apply andb_prop in E. destruct E as [E _].
    apply negb_true_iff in E. unfold isEnd in E. apply Z.leb_gt in E.
    simpl. lia.
Qed.

Lemma consumeStringFast_moved str sc : moved sc (snd (consumeStringFast str sc)).
Proof.
  unfold consumeStringFast. split_ifs; try apply moved_refl; apply moved_set.
Qed.

Lemma consumeStringFast_in_range str sc :
  in_range sc -> in_range (snd (consumeStringFast str sc)).
Proof.
  intro R. unfold consumeStringFast.
  split_ifs; auto; apply advance_in_range; auto; lia.
Qed.

Lemma run_moved o sc : moved sc (snd (run o sc)).
Proof.
  destruct o; simpl;
    try apply moved_set; try apply moved_refl.
  - unfold consumeMatch. destruct (negb (sticky regex)); [apply moved_refl|].
    destruct (exec _ _) as [[res|] re']; simpl; [|apply moved_refl].
    destruct (result_length res =? 0); simpl; [apply moved_refl | apply moved_set].
  - unfold consumeMatchFn. simpl. apply loop_moved.
  - unfold consumeString.
    pose proof (consumeStringFast_moved stringToConsume sc) as M.
    destruct (consumeStringFast stringToConsume sc) as [fast sc1]. simpl in M.
    split_ifs; auto. eapply moved_trans; [exact M | apply moved_set].
  - apply consumeStringFast_moved.
  - unfold consumeUntilMatch. destruct (negb (global regex)); [apply moved_refl|].
    destruct (exec _ _) as [[res|] re']; simpl; [|apply moved_refl].
    match goal with
    | |- context [if ?b then _ else _] => destruct b; simpl
    end; [apply moved_refl | apply moved_set].
  - unfold consumeUntilString.
    destruct (_ <=? 0); simpl; [apply moved_refl | apply moved_set].
Qed.

Lemma run_in_range o sc :
  forward o -> in_range sc -> in_range (snd (run o sc)).
Proof.
  intros F R.
  destruct o; simpl in *;
    auto using advance_in_range, reset_in_range.
  - unfold consumeMatch. destruct (negb (sticky regex)); [assumption|].
    destruct (exec _ _) as [[res|] re']; simpl; [|assumption].
    destruct (result_length res =? 0); simpl; [assumption|].
    apply advance_in_range; [apply charLength_nonneg | assumption].
  - unfold consumeMatchFn. simpl. now apply loop_in_range.
  - unfold consumeString.
    pose proof (consumeStringFast_in_range stringToConsume sc R) as M.
    destruct (consumeStringFast stringToConsume sc) as [fast sc1]. simpl in M.
    split_ifs; auto. apply advance_in_range; [apply charLength_nonneg | assumption].
  - now apply consumeStringFast_in_range.
  - unfold consumeUntilMatch. destruct (negb (global regex)); [assumption|].
    destruct (exec _ _) as [[res|] re']; simpl; [|assumption].
    match goal with
    | |- context [if ?b then _ else _] => destruct b; simpl
    end; [assumption|].
    apply advance_in_range; [apply charLength_nonneg | assumption].
  - unfold consumeUntilString.
    destruct (_ <=? 0); simpl; [assumption|].
    apply advance_in_range; [apply charLength_nonneg | assumption].
Qed.

Lemma new_in_range s : in_range (new_StringScanner s).
Proof. unfold in_range. rewrite new_charIndex, new_charCount. lia. Qed.

Lemma run_all_in_range : forall os sc,
  Forall forward os -> in_range sc -> in_range (run_all os sc).
Proof.
  induction os as [|o os IH]; intros sc F R; simpl; [assumption|].
  inversion F; subst. apply IH; [assumption|]. now apply run_in_range.
Qed.

Lemma run_all_moved : forall os sc, moved sc (run_all os sc).
Proof.
  induction os as [|o os IH]; intro sc; simpl; [apply moved_refl|].
  eapply moved_trans; [apply run_moved | apply IH].
Qed.

End Moves.

(** ** The position invariant *)

Lemma moved_charCount sc sc' : moved sc sc' -> charCount sc' = charCount sc.
Proof. unfold moved. intro M. now rewrite M. Qed.

Lemma reachable_scanner_at s os :
  Forall forward os ->
  exists p, run_all os (new_StringScanner s) = scanner_at s p
            /\ 0 <= p <= charCount (new_StringScanner s).
Proof.
  intro F. exists (charIndex (run_all os (new_StringScanner s))). split.
  - apply run_all_moved.
  - pose proof (run_all_in_range os _ F (new_in_range s)) as R.
    pose proof (moved_charCount _ _ (run_all_moved os (new_StringScanner s))) as M.
    unfold in_range in R. now rewrite M in R.
Qed.

(** C9, as amended. Position invariant: starting from a freshly constructed
    scanner, after any sequence of calls (advance, reset, peek and all the
    consuming operations) in which the counts given to [advance] and
    [consume] are not negative, the position satisfies
    [0 <= position <= charCount]; the arguments of [reset] and [peek], the
    strings, the patterns and the predicates are arbitrary. *)
Theorem position_invariant_forward (s : jsstring) (os : list op) :
  Forall forward os -> position_invariant s os.
Proof.
  intro F. apply run_all_in_range; [assumption | apply new_in_range].
Qed.

(** An instance: over-advance, rewind, then two consuming calls on [abc]. *)
Lemma position_invariant_forward_witness :
  Forall forward [Advance 7; Reset (-2); Consume 1; ConsumeString (js "b"%string)]
  /\ position_invariant (js "abc"%string)
       [Advance 7; Reset (-2); Consume 1; ConsumeString (js "b"%string)].
Proof.
  assert (F : Forall forward
                [Advance 7; Reset (-2); Consume 1; ConsumeString (js "b"%string)]).
  { repeat constructor; simpl; lia. }
  split; [exact F | exact (position_invariant_forward _ _ F)].
Defined.

(** Without the restriction the invariant fails: [advance(-1)] on a fresh
    scanner leaves the position at -1. *)
Lemma position_invariant_backward_fails :
  ~ position_invariant (js "abc"%string) [Advance (-1)].
Proof.
  unfold position_invariant, in_range. vm_compute. intros [H _]. apply H. reflexivity.
Qed.

(** ** Peek and consume *)

(** C6, as amended. Peek/consume duality: for every count [c >= 0] and
    every position [p] within the input, [consume(c)] returns exactly the
    string that [peek(c)] returns in the same state, and after [consume(c)]
    the position is [p] plus the logical character length of that string. *)
Theorem peek_consume_duality_forward (s : jsstring) (p c : Z) :
  0 <= p <= charCount (new_StringScanner s) -> 0 <= c ->
  peek_consume_duality s p c.
Proof.
  intros Hp Hc. unfold peek_consume_duality. cbv zeta.
  unfold consume. cbn [run fst snd]. split; [reflexivity|]. split; [reflexivity|].
  rewrite peek_chars by assumption. eexists. split; [reflexivity|].
  rewrite charLength_range, code_points_range. split; [reflexivity|].
  rewrite new_charCount in Hp.
  cbn [advance scanner_at set_charIndex charIndex charCount].
  rewrite new_charCount, length_firstn, length_skipn. lia.
Qed.

(** An instance: [consume(5)] at position 1 of [abc]. *)
Lemma peek_consume_duality_forward_witness :
  peek_consume_duality (js "abc"%string) 1 5.
Proof.
  apply peek_consume_duality_forward; [rewrite new_charCount; simpl; lia | lia].
Defined.

(** For a negative count the duality fails: at position 1 of [ab],
    [peek(-1)] is the empty string and [consume(-1)] moves the position to 0,
    not to 1 + 0. *)
Lemma peek_consume_duality_backward_fails :
  ~ peek_consume_duality (js "ab"%string) 1 (-1).
Proof.
  unfold peek_consume_duality. cbv zeta. intros (_ & _ & text & P & _ & H).
  vm_compute in P. injection P as <-. vm_compute in H. discriminate.
Qed.

(** ** Atomic failure *)

Section Atomic.

Lemma advance_charLength_nil sc r :
  in_range sc -> r = [] -> advance (_charLength sc r) sc = sc.
Proof. intros R ->. apply advance_0, R. Qed.

Lemma scanner_at_in_range s p :
  0 <= p <= charCount (new_StringScanner s) -> in_range (scanner_at s p).
Proof. intro H. exact H. Qed.

Lemma consumeStringFast_result str sc :
  in_range sc ->
  (fst (consumeStringFast str sc) = str \/ fst (consumeStringFast str sc) = [])
  /\ (fst (consumeStringFast str sc) = [] -> snd (consumeStringFast str sc) = sc).
Proof.
  intro R. unfold consumeStringFast.
  destruct (strict_eq _ _); [|simpl; auto].
  destruct (Z.eqb_spec (Z.of_nat (length str)) 1) as [E|E]; simpl.
  - split; [auto|]. intros ->. discriminate.
  - destruct (strict_eq _ _); simpl; [|auto].
    split; [auto|]. intros ->. apply advance_0, R.
Qed.

Lemma consume_atomic s p c :
  0 <= p <= charCount (new_StringScanner s) -> 0 <= c ->
  peek c (scanner_at s p) = Str [] ->
  advance c (scanner_at s p) = scanner_at s p.
Proof.
  intros Hp Hc. rewrite peek_chars by assumption. intro E.
  injection E as E. rewrite new_charCount in Hp.
  assert (p + c <= p \/ Z.of_nat (length (code_points s)) <= p) as H.
  { destruct (Z.ltb_spec p (Z.of_nat (length (code_points s)))); [|lia].
    destruct (Z.eqb_spec c 0); [lia|]. exfalso.
    revert E. apply range_nonempty; lia. }
  unfold advance, scanner_at, set_charIndex. simpl. rewrite new_charCount.
  f_equal. lia.
Qed.

Lemma consumeMatchFn_atomic fn s p :
  0 <= p <= charCount (new_StringScanner s) ->
  fst (consumeMatchFn fn (scanner_at s p)) = [] ->
  snd (consumeMatchFn fn (scanner_at s p)) = scanner_at s p.
Proof.
  intro Hp. unfold consumeMatchFn. cbn [fst snd].
  set (sc := scanner_at s p).
  set (sc' := consumeMatchFn_loop fn _ sc).
  pose proof (loop_moved fn (Z.to_nat (charCount sc - charIndex sc)) sc) as M.
  pose proof (loop_forward fn (Z.to_nat (charCount sc - charIndex sc)) sc) as F.
  pose proof (loop_in_range fn (Z.to_nat (charCount sc - charIndex sc)) sc Hp) as R.
  fold sc' in M, F, R. unfold in_range in R.
  rewrite (moved_charCount _ _ M) in R.
  change (charIndex sc) with p in *. change (charCount sc) with (charCount (new_StringScanner s)) in *.
  destruct (Z.ltb_spec p (charIndex sc')) as [L|L].
  - rewrite M. cbn [string charsToBytes set_charIndex sc scanner_at charIndex].
    rewrite new_string. rewrite slice_range by lia.
    intro E. exfalso. revert E. rewrite new_charCount in R.
    apply range_nonempty; lia.
  - intros _. rewrite M. replace (charIndex sc') with p by lia. reflexivity.
Qed.

End Atomic.

(** C8, as amended. Atomic failure: in every state whose position is
    within the input, every consuming operation (consume with a count that is
    not negative, consumeMatch, consumeMatchFn, consumeString,
    consumeStringFast, consumeUntilMatch, consumeUntilString) that returns the
    empty string leaves the scanner as it was. *)
Theorem atomic_failure_forward (o : op) (s : jsstring) (p : Z) :
  0 <= p <= charCount (new_StringScanner s) ->
  forward o ->
  atomic_failure o (scanner_at s p).
Proof.
  intros Hp F C. pose proof (scanner_at_in_range s p Hp) as R.
  destruct o; try discriminate C; clear C; cbn [run returned returns fst snd].
  - (* consume *)
    unfold consume. cbn [fst snd]. intro E. injection E as E.
    now apply consume_atomic.
  - (* consumeMatch *)
    unfold consumeMatch. destruct (negb (sticky regex)); [discriminate|].
    destruct (exec _ _) as [[res|] re']; cbn [fst snd]; [|reflexivity].
    destruct (result_length res =? 0); cbn [fst snd]; [reflexivity|].
    intro E. injection E as E. now apply advance_charLength_nil.
  - (* consumeMatchFn *)
    intro E. injection E as E. now apply consumeMatchFn_atomic.
  - (* consumeString *)
    unfold consumeString.
    destruct (consumeStringFast_result stringToConsume (scanner_at s p) R) as [V U].
    destruct (consumeStringFast stringToConsume (scanner_at s p)) as [fast sc1].
    cbn [fst snd] in *.
    destruct fast as [|c fast]; cbn [truthy].
    + rewrite (U eq_refl).
      destruct (negb (multiByteMode (scanner_at s p))); cbn [fst snd]; [reflexivity|].
      match goal with
      | |- context [if ?b then _ else _] => destruct b eqn:B
      end; cbn [fst snd]; [|reflexivity].
      intro E. injection E as E. subst stringToConsume. discriminate B.
    + cbn [fst snd]. intro E. injection E as E. subst stringToConsume.
      destruct V; discriminate.
  - (* consumeStringFast *)
    intro E. injection E as E.
    now apply (consumeStringFast_result stringToConsume (scanner_at s p) R).
  - (* consumeUntilMatch *)
    unfold consumeUntilMatch. destruct (negb (global regex)); [discriminate|].
    destruct (exec _ _) as [[res|] re']; cbn [fst snd]; [|reflexivity].
    match goal with
    | |- context [if ?b then _ else _] => destruct b
    end; cbn [fst snd]; [reflexivity|].
    intro E. injection E as E. now apply advance_charLength_nil.
  - (* consumeUntilString *)
    unfold consumeUntilString.
    destruct (_ <=? 0); cbn [fst snd]; [reflexivity|].
    intro E. injection E as E. now apply advance_charLength_nil.
Qed.

(** An instance: [consumeString] of a literal that is not there. *)
Lemma atomic_failure_forward_witness :
  atomic_failure (ConsumeString (js "x"%string)) (scanner_at (js "abc"%string) 1).
Proof.
  apply atomic_failure_forward; [rewrite new_charCount; simpl; lia | exact I].
Defined.

(** With a negative count [consume] returns the empty string and moves the
    position: at position 1 of [ab], [consume(-1)] leaves it at 0. *)
Lemma atomic_failure_backward_fails :
  ~ atomic_failure (Consume (-1)) (scanner_at (js "ab"%string) 1).
Proof.
  unfold atomic_failure. intro H.
  specialize (H eq_refl eq_refl). vm_compute in H. discriminate H.
Qed.

(** ** Contract validation *)

Lemma consumeMatch_throws regex sc :
  throws (fst (fst (consumeMatch regex sc))) = negb (sticky regex).
Proof.
  unfold consumeMatch. destruct (sticky regex); cbn [negb fst throws]; [|reflexivity].
  destruct (exec _ _) as [[res|] re']; cbn [fst throws]; [|reflexivity].
  now destruct (result_length res =? 0).
Qed.

Lemma consumeUntilMatch_throws regex sc :
  throws (fst (fst (consumeUntilMatch regex sc))) = negb (global regex).
Proof.
  unfold consumeUntilMatch. destruct (global regex); cbn [negb fst throws]; [|reflexivity].
  destruct (exec _ _) as [[res|] re']; cbn [fst throws]; [|reflexivity].
  match goal with
  | |- context [if ?b then _ else _] => now destruct b
  end.
Qed.

Lemma throws_returned r : throws (fst (returned r)) = throws (fst (fst r)).
Proof. unfold returned. cbn [fst]. now destruct (fst (fst r)). Qed.

(** C7. Eager contract validation: [consumeMatch] throws exactly when its
    pattern lacks the sticky flag, and then neither the pattern nor the
    scanner has changed; [consumeUntilMatch] throws exactly when its pattern
    lacks the global flag, likewise; and a call of any operation throws only
    in these two cases. *)
Theorem eager_contract_validation :
  (forall regex sc,
      throws (fst (fst (consumeMatch regex sc))) = negb (sticky regex)
      /\ (sticky regex = false ->
          consumeMatch regex sc = (Throw StickyFlagRequired, regex, sc)))
  /\ (forall regex sc,
      throws (fst (fst (consumeUntilMatch regex sc))) = negb (global regex)
      /\ (global regex = false ->
          consumeUntilMatch regex sc = (Throw GlobalFlagRequired, regex, sc)))
  /\ (forall o sc,
      throws (fst (run o sc)) = true <->
      (exists regex, o = ConsumeMatch regex /\ sticky regex = false)
      \/ (exists regex, o = ConsumeUntilMatch regex /\ global regex = false)).
Proof.
  split; [|split].
  - intros regex sc. split; [apply consumeMatch_throws|].
    intro E. unfold consumeMatch. now rewrite E.
  - intros regex sc. split; [apply consumeUntilMatch_throws|].
    intro E. unfold consumeUntilMatch. now rewrite E.
  - intros o sc. split.
    + destruct o; cbn [run returns fst throws]; try discriminate;
        rewrite throws_returned.
      * rewrite consumeMatch_throws. intro E. left. exists regex.
        split; [reflexivity | now apply negb_true_iff].
      * rewrite consumeUntilMatch_throws. intro E. right. exists regex.
        split; [reflexivity | now apply negb_true_iff].
    + intros [(regex & -> & E) | (regex & -> & E)]; cbn [run];
        rewrite throws_returned.
      * rewrite consumeMatch_throws. now rewrite E.
      * rewrite consumeUntilMatch_throws. now rewrite E.
Qed.

(** ** The incoming search offset *)

(** C10. The incoming search offset does not matter: [consumeMatch] and
    [consumeUntilMatch] called in the same scanner state with two patterns
    that differ only in [lastIndex] complete alike (the same string, or the
    same error) and leave the same scanner; with the flag the operation
    requires, they leave the same pattern state too. *)
Theorem lastIndex_noninterference (regex : RegExp) (v : option Z) (sc : StringScanner) :
  (fst (fst (consumeMatch (set_lastIndex regex v) sc))
     = fst (fst (consumeMatch regex sc))
   /\ snd (consumeMatch (set_lastIndex regex v) sc) = snd (consumeMatch regex sc)
   /\ (sticky regex = true ->
       consumeMatch (set_lastIndex regex v) sc = consumeMatch regex sc))
  /\ (fst (fst (consumeUntilMatch (set_lastIndex regex v) sc))
        = fst (fst (consumeUntilMatch regex sc))
      /\ snd (consumeUntilMatch (set_lastIndex regex v) sc)
         = snd (consumeUntilMatch regex sc)
      /\ (global regex = true ->
          consumeUntilMatch (set_lastIndex regex v) sc
          = consumeUntilMatch regex sc)).
Proof.
  split.
  - unfold consumeMatch. cbn [sticky set_lastIndex].
    destruct (sticky regex); cbn [negb fst snd].
    + repeat split; reflexivity.
    + repeat split; try reflexivity. discriminate.
  - unfold consumeUntilMatch. cbn [global set_lastIndex].
    destruct (global regex); cbn [negb fst snd].
    + repeat split; reflexivity.
    + repeat split; try reflexivity. discriminate.
Qed.

(** ** The fast and the general literal match *)

Lemma single_units_length str :
  Forall single (code_points str) -> length (code_points str) = length str.
Proof.
  intro H. rewrite <- (concat_code_points str) at 2.
  pose proof (single_byteOffset (code_points str) (length (code_points str)) H) as E.
  unfold byteOffset in E. rewrite firstn_all in E. symmetry. exact E.
Qed.

Lemma charLength_single_units sc str :
  Forall single (code_points str) -> _charLength sc str = Z.of_nat (length str).
Proof.
  intro H. unfold _charLength. destruct (_ || _); [reflexivity|].
  now rewrite replace_pairs_length, single_units_length.
Qed.

(** C4. Fast/slow path equivalence: for every literal [L] all of whose
    characters occupy a single storage unit, and for every scanner state,
    [consumeString(L)] and [consumeStringFast(L)] return the same string and
    leave the same scanner. *)
Theorem fast_slow_equivalence (L : jsstring) (sc : StringScanner) :
  Forall single (code_points L) ->
  consumeString L sc = consumeStringFast L sc.
Proof.
  intro H. unfold consumeString.
  assert (V : fst (consumeStringFast L sc) = L \/ fst (consumeStringFast L sc) = []).
  { unfold consumeStringFast. split_ifs; auto. }
  destruct (consumeStringFast L sc) as [fast sc1]. cbn [fst] in V.
  assert (E : (negb (_charLength sc1 L =? Z.of_nat (length L))) = false).
  { rewrite charLength_single_units by assumption. now rewrite Z.eqb_refl. }
  rewrite E. cbn [andb].
  destruct fast as [|c fast]; cbn [truthy].
  - now destruct (negb (multiByteMode sc1)).
  - destruct V as [V|V]; [now rewrite V | discriminate].
Qed.

(** An instance: Scenario A's literal and input. *)
Lemma fast_slow_equivalence_witness :
  consumeString (js "<foo"%string) (new_StringScanner (js "<foo>"%string))
  = consumeStringFast (js "<foo"%string) (new_StringScanner (js "<foo>"%string)).
Proof.
  apply fast_slow_equivalence. repeat constructor.
Defined.

(** ** Searching for a literal *)

Section Search.

Lemma starts_with_iff t : forall r,
  starts_with t r = true <-> exists post, r = t ++ post.
Proof.
  induction t as [|x t IH]; intro r; simpl.
  - split; eauto.
  - destruct r as [|y r].
    + split; [discriminate | intros [post E]; discriminate E].
    + rewrite andb_true_iff, N.eqb_eq, IH. split.
      * intros [-> [post ->]]. eauto.
      * intros [post E]. injection E as -> ->. eauto.
Qed.

Lemma occurs_at_iff t s k :
  occurs_at t s k <-> (k <= length s)%nat /\ starts_with t (skipn k s) = true.
Proof.
  unfold occurs_at. rewrite starts_with_iff. split.
  - intros (pre & post & -> & <-). split.
    + rewrite length_app. lia.
    + exists post. now rewrite skipn_app, skipn_all, Nat.sub_diag.
  - intros [L [post E]]. exists (firstn k s), post. split.
    + rewrite <- E. symmetry. apply firstn_skipn.
    + apply firstn_length_le, L.
Qed.

Lemma StringIndexOf_spec t : forall rest i,
  match StringIndexOf t rest i with
  | Some k =>
      (i <= k <= i + length rest)%nat
      /\ starts_with t (skipn (k - i) rest) = true
      /\ forall j, (i <= j < k)%nat -> starts_with t (skipn (j - i) rest) = false
  | None =>
      forall j, (i <= j <= i + length rest)%nat ->
                starts_with t (skipn (j - i) rest) = false
  end.
Proof.
  induction rest as [|x rest IH]; intro i; cbn [StringIndexOf].
  - destruct (starts_with t []) eqn:E.
    + rewrite Nat.sub_diag. simpl. repeat split; auto; lia.
    + intros j Hj. simpl in Hj. now rewrite skipn_nil.
  - destruct (starts_with t (x :: rest)) eqn:E.
    + rewrite Nat.sub_diag. simpl. repeat split; auto; lia.
    + specialize (IH (S i)). destruct (StringIndexOf t rest (S i)) as [k|].
      * destruct IH as (B & S1 & N1). simpl length. split; [lia|]. split.
        -- replace (k - i)%nat with (S (k - S i)) by lia. exact S1.
        -- intros j Hj. destruct (Nat.eq_dec j i) as [->|Hne].
           ++ now rewrite Nat.sub_diag.
           ++ replace (j - i)%nat with (S (j - S i)) by lia. apply N1. lia.
      * intros j Hj. simpl length in Hj. destruct (Nat.eq_dec j i) as [->|Hne].
        -- now rewrite Nat.sub_diag.
        -- replace (j - i)%nat with (S (j - S i)) by lia. apply IH. lia.
Qed.

Lemma skipn_skipn' {A} (l : list A) i j :
  (i <= j)%nat -> skipn (j - i) (skipn i l) = skipn j l.
Proof.
  intro H. rewrite skipn_skipn. f_equal. lia.
Qed.

Lemma indexOf_first_occurrence s t start :
  (start <= length s)%nat ->
  first_occurrence s t start (indexOf s t (Some (Z.of_nat start))).
Proof.
  intro L. unfold indexOf, first_occurrence. cbn [ToIntegerOrInfinity].
  replace (Z.to_nat (Z.min (Z.max (Z.of_nat start) 0) (Z.of_nat (length s))))
    with start by lia.
  pose proof (StringIndexOf_spec t (skipn start s) start) as H.
  rewrite length_skipn in H.
  destruct (StringIndexOf t (skipn start s) start) as [k|].
  - right. exists k. destruct H as (B & S1 & N1).
    rewrite skipn_skipn' in S1 by lia.
    repeat split; try lia.
    + apply occurs_at_iff. split; [lia | exact S1].
    + intros j Hj O. apply occurs_at_iff in O. destruct O as [_ O].
      specialize (N1 j Hj). rewrite skipn_skipn' in N1 by lia. congruence.
  - left. split; [reflexivity|]. intros k Hk O.
    apply occurs_at_iff in O. destruct O as [Lk O].
    specialize (H k ltac:(lia)). rewrite skipn_skipn' in H by lia. congruence.
Qed.

Lemma slice_backwards s b m :
  0 <= m <= b -> slice s (Some b) (Some m) = [].
Proof.
  intro H. unfold slice. cbn [ToIntegerOrInfinity].
  destruct (Z.ltb_spec b 0); [lia|]. destruct (Z.ltb_spec m 0); [lia|].
  destruct (Z.leb_spec (Z.min m (Z.of_nat (length s))) (Z.min b (Z.of_nat (length s))));
    [reflexivity | lia].
Qed.

Lemma byteOffset_lt_inv cs i j :
  (byteOffset cs i < byteOffset cs j)%nat -> (i < j)%nat.
Proof.
  intro H. destruct (Nat.le_gt_cases j i) as [L|L]; [|exact L].
  pose proof (byteOffset_mono cs j i L). lia.
Qed.

End Search.

(** C5, as amended. Literal scan-ahead: in every state whose position is
    before the end of the input, and for every search string whose first
    occurrence at or after the position's storage offset (if there is one)
    starts on a character boundary, [consumeUntilString] returns the text
    between the position and that occurrence and moves the position exactly
    onto it when the occurrence lies after the position, and returns the
    empty string with the scanner unchanged when the occurrence is at the
    position or there is none. *)
Theorem consumeUntilString_scan_ahead (s : jsstring) (p : Z) (t : jsstring) :
  0 <= p < charCount (new_StringScanner s) ->
  (0 <= indexOf s t (Some (byteIndexOf (scanner_at s p))) ->
   char_boundary s (indexOf s t (Some (byteIndexOf (scanner_at s p))))) ->
  literal_scan_ahead (scanner_at s p) t.
Proof.
  intros Hp HB. unfold literal_scan_ahead. cbv zeta.
  assert (R : in_range (scanner_at s p)) by (apply scanner_at_in_range; lia).
  assert (Hb : byteIndexOf (scanner_at s p)
               = Z.of_nat (byteOffset (code_points s) (Z.to_nat p))).
  { unfold byteIndexOf, scanner_at. cbn [chars charIndex set_charIndex].
    now rewrite new_chars. }
  assert (Hg : get (charsToBytes (scanner_at s p)) (charIndex (scanner_at s p))
               = Some (byteIndexOf (scanner_at s p))).
  { rewrite Hb. cbn [scanner_at set_charIndex charsToBytes charIndex].
    now apply get_charsToBytes. }
  unfold consumeUntilString. rewrite Hg.
  replace (string (scanner_at s p)) with s
    by (symmetry; apply new_string).
  set (b := byteIndexOf (scanner_at s p)) in *.
  set (m := indexOf s t (Some b)) in *.
  split; [|split].
  - unfold m. rewrite Hb, Nat2Z.id. apply indexOf_first_occurrence.
    rewrite <- (concat_code_points s) at 2. apply byteOffset_le.
  - intro Lt. destruct (Z.leb_spec m 0); [lia|]. cbn [fst snd].
    destruct (HB ltac:(lia)) as (q & Lq & Hq).
    assert (Hpq : (Z.to_nat p < q)%nat).
    { apply (byteOffset_lt_inv (code_points s)). lia. }
    assert (Hs : slice s (Some b) (Some m)
                 = concat (firstn (q - Z.to_nat p)
                                  (skipn (Z.to_nat p) (code_points s)))).
    { rewrite Hb, Hq.
      replace q with (Z.to_nat p + (q - Z.to_nat p))%nat at 1 by lia.
      apply slice_code_points. }
    split; [reflexivity|]. split; [reflexivity|].
    rewrite Hs, charLength_range, length_firstn, length_skipn.
    unfold byteIndexOf.
    cbn [advance scanner_at set_charIndex charIndex charCount chars].
    rewrite new_charCount, new_chars.
    replace (Z.min (Z.of_nat (length (code_points s)))
               (p + Z.of_nat (Nat.min (q - Z.to_nat p)
                                (length (code_points s) - Z.to_nat p))))
      with (Z.of_nat q) by lia.
    rewrite Nat2Z.id. split; [lia | now symmetry].
  - intro Le. destruct (Z.leb_spec m 0); cbn [fst snd]; [split; reflexivity|].
    rewrite slice_backwards by lia. split; [reflexivity|].
    now apply advance_charLength_nil.
Qed.

(** An instance: Scenario B's input from position 1; the occurrence of the
    closing tag is at storage offset 5, where the fifth character starts. *)
Lemma consumeUntilString_scan_ahead_witness :
  literal_scan_ahead
    (scanner_at pile_of_poo 1)
    (js "</a>"%string).
Proof.
  apply consumeUntilString_scan_ahead.
  - rewrite new_charCount. vm_compute. split; [discriminate | reflexivity].
  - intros _. exists 4%nat. vm_compute. split; [lia | reflexivity].
Defined.

(** A search string that is a lone low surrogate is found inside a
    surrogate pair: on the letter [a] followed by U+1F4A9, from position 0,
    the text returned ends with half the pair and the position ends at 2,
    past the occurrence (storage offset 3, not 2). *)
Lemma literal_scan_ahead_splits_pair :
  ~ literal_scan_ahead (scanner_at [97; 55357; 56489]%N 0) [56489%N].
Proof.
  unfold literal_scan_ahead. cbv zeta. intros (_ & H & _).
  destruct H as (_ & _ & _ & H); [vm_compute; reflexivity|].
  vm_compute in H. discriminate H.
Qed.

(** ** Character boundaries *)

Section Boundaries.

Lemma boundary_of_non_low s : forall m,
  (m <= length s)%nat ->
  (forall c, nth_error s m = Some c -> is_low c = false) ->
  exists q, (q <= length (code_points s))%nat
            /\ byteOffset (code_points s) q = m.
Proof.
  induction s as [|c|c d t E IH|c d t E IH] using code_points_cases;
    intros m L H.
  - exists 0%nat. simpl in *. split; [lia|]. unfold byteOffset. simpl. lia.
  - destruct m as [|m].
    + exists 0%nat. split; [simpl; lia | reflexivity].
    + exists 1%nat. simpl in *. split; [lia|]. unfold byteOffset. simpl. lia.
  - rewrite code_points_pair by assumption.
    destruct m as [|[|m]].
    + exists 0%nat. split; [simpl; lia | reflexivity].
    + specialize (H d eq_refl). apply andb_prop in E. destruct E. congruence.
    + destruct (IH m) as (q & Lq & Hq); [simpl in L |- *; lia | exact H |].
      exists (S q). split; [cbn [length]; lia|]. now rewrite byteOffset_cons, Hq.
  - rewrite code_points_single by assumption.
    destruct m as [|m].
    + exists 0%nat. split; [simpl; lia | reflexivity].
    + destruct (IH m) as (q & Lq & Hq); [simpl in L |- *; lia | exact H |].
      exists (S q). split; [cbn [length]; lia|]. now rewrite byteOffset_cons, Hq.
Qed.

(** An occurrence of a search string that does not begin with a low
    surrogate starts where a character starts. *)
Lemma occurrence_on_boundary s c t k :
  is_low c = false -> occurs_at (c :: t) s k -> char_boundary s (Z.of_nat k).
Proof.
  intros NL (pre & post & -> & <-).
  destruct (boundary_of_non_low (pre ++ (c :: t) ++ post) (length pre))
    as (q & Lq & Hq).
  - rewrite length_app. lia.
  - intros x. rewrite nth_error_app2, Nat.sub_diag by lia.
    simpl. intro E. injection E as <-. exact NL.
  - exists q. split; [exact Lq | now rewrite Hq].
Qed.

Lemma indexOf_empty s start :
  (start <= length s)%nat -> indexOf s [] (Some (Z.of_nat start)) = Z.of_nat start.
Proof.
  intro L. unfold indexOf. cbn [ToIntegerOrInfinity].
  replace (Z.to_nat (Z.min (Z.max (Z.of_nat start) 0) (Z.of_nat (length s))))
    with start by lia.
  now destruct (skipn start s).
Qed.

Lemma non_low_search_on_boundary s p t :
  0 <= p <= charCount (new_StringScanner s) ->
  is_low (hd 0%N t) = false ->
  0 <= indexOf s t (Some (byteIndexOf (scanner_at s p))) ->
  char_boundary s (indexOf s t (Some (byteIndexOf (scanner_at s p)))).
Proof.
  intros Hp NL. unfold byteIndexOf, scanner_at.
  cbn [chars charIndex set_charIndex]. rewrite new_chars.
  rewrite new_charCount in Hp.
  assert (L : (byteOffset (code_points s) (Z.to_nat p) <= length s)%nat).
  { rewrite <- (concat_code_points s) at 2. apply byteOffset_le. }
  destruct t as [|c t].
  - rewrite indexOf_empty by exact L. intros _.
    exists (Z.to_nat p). split; [lia | reflexivity].
  - destruct (indexOf_first_occurrence s (c :: t) _ L)
      as [[E _] | (k & E & _ & O & _)]; rewrite E; [lia|].
    intros _. now apply (occurrence_on_boundary s c t).
Qed.

End Boundaries.

(** ** The search loop of [exec] *)

Lemma AdvanceStringIndex_gt s i u : (i < AdvanceStringIndex s i u)%nat.
Proof.
  unfold AdvanceStringIndex. destruct u; [|lia].
  destruct (skipn i s) as [|c [|d r]]; try lia.
  destruct (is_high c && is_low d); lia.
Qed.

(** The fuel [exec] gives its loop is enough: more changes nothing. *)
Lemma exec_loop_fuel r s : forall fuel i,
  (length s + 2 <= fuel + i)%nat ->
  exec_loop r s (S fuel) i = exec_loop r s fuel i.
Proof.
  induction fuel as [|fuel IH]; intros i H.
  - simpl. destruct (Nat.ltb_spec (length s) i); [reflexivity | lia].
  - change (exec_loop r s (S (S fuel)) i)
      with (if (length s <? i)%nat then None
            else match matcher r s i with
                 | Some e => Some (i, e)
                 | None => if sticky r then None
                           else exec_loop r s (S fuel)
                                  (AdvanceStringIndex s i (fullUnicode r))
                 end).
    rewrite IH by (pose proof (AdvanceStringIndex_gt s i (fullUnicode r)); lia).
    reflexivity.
Qed.

(** ** End of input *)

(** C2, at the input on which the code departs from it. With the input
    [42] wholly consumed (position 2, the end), [charsToBytes[charIndex]] is
    [undefined]; [consumeMatch] with the sticky pattern of one or more digits
    then matches from offset 0 and returns [42], the position staying 2. *)
Theorem consumeMatch_at_end_rescans :
  let sc := advance 2 (new_StringScanner (js "42"%string)) in
  isEnd sc = true
  /\ get (charsToBytes sc) (charIndex sc) = None
  /\ consumeMatch digits_sticky sc
     = (Return (js "42"%string), set_lastIndex digits_sticky (Some 2), sc).
Proof. vm_compute. repeat split. Qed.

(** Scenario C: on the input of two spaces, [42] and [px], at position 2,
    [consumeMatch] with the sticky digits pattern returns [42] and moves to
    position 4; called again there it returns the empty string and stays. *)
Lemma scenario_anchored_regex :
  let sc := advance 2 (new_StringScanner (js "  42px"%string)) in
  consumeMatch digits_sticky sc
  = (Return (js "42"%string), set_lastIndex digits_sticky (Some 4), advance 2 sc)
  /\ charIndex (advance 2 sc) = 4
  /\ consumeMatch digits_sticky (advance 2 sc)
     = (Return emptyString, set_lastIndex digits_sticky (Some 0), advance 2 sc).
Proof. vm_compute. repeat split. Qed.

(** C3, at inputs on which the code departs from it. At the end of the
    input [abc123def], [consumeUntilString] for [123] and [consumeUntilMatch]
    for the global digits pattern both return [abc]; at the end of the input
    [7], [consumeMatch] with the sticky digits pattern returns [7]. The
    position stays at the end in each case. *)
Theorem scan_ahead_at_end_rescans :
  let sc := advance 9 (new_StringScanner (js "abc123def"%string)) in
  let sc' := advance 1 (new_StringScanner (js "7"%string)) in
  isEnd sc = true
  /\ consumeUntilString (js "123"%string) sc = (js "abc"%string, sc)
  /\ consumeUntilMatch digits_global sc
     = (Return (js "abc"%string), set_lastIndex digits_global (Some 6), sc)
  /\ isEnd sc' = true
  /\ consumeMatch digits_sticky sc'
     = (Return (js "7"%string), set_lastIndex digits_sticky (Some 1), sc').
Proof. vm_compute. repeat split. Qed.

(** ** Anchored matching before the end of input *)

Section Anchored.

Lemma code_points_prefix_le x : forall k,
  (length (code_points (firstn k x)) <= length (code_points x))%nat.
Proof.
  induction x as [|c|c d t E IH|c d t E IH] using code_points_cases; intro k.
  - rewrite firstn_nil. simpl. lia.
  - destruct k as [|[|k]]; simpl; lia.
  - rewrite code_points_pair by assumption.
    destruct k as [|[|k]]; cbn [firstn].
    + simpl. lia.
    + simpl. lia.
    + rewrite code_points_pair by assumption. specialize (IH k).
      cbn [length]. lia.
  - rewrite code_points_single by assumption.
    destruct k as [|[|k]]; cbn [firstn].
    + simpl. lia.
    + simpl. lia.
    + rewrite code_points_single by assumption. specialize (IH (S k)).
      cbn [firstn length] in *. lia.
Qed.

Lemma charLength_prefix_le s p i k :
  _charLength (scanner_at s p) (firstn k (concat (skipn i (code_points s))))
  <= Z.of_nat (length (skipn i (code_points s))).
Proof.
  destruct (multiByteMode (scanner_at s p)) eqn:M.
  - rewrite charLength_multi by assumption.
    pose proof (code_points_prefix_le (concat (skipn i (code_points s))) k) as H.
    rewrite code_points_skipn in H. lia.
  - unfold _charLength. rewrite M, orb_true_r.
    rewrite length_firstn.
    assert (E : length (concat (skipn i (code_points s)))
                = length (skipn i (code_points s))).
    { pose proof (single_byteOffset (skipn i (code_points s))
                    (length (skipn i (code_points s)))) as H.
      unfold byteOffset in H. rewrite firstn_all in H. apply H.
      apply Forall_skipn', code_points_all_single.
      cbn [scanner_at set_charIndex multiByteMode] in M.
      rewrite new_multiByteMode in M.
      apply negb_false_iff, Z.eqb_eq in M. lia. }
    lia.
Qed.

Lemma advance_scanner_at k s p :
  advance k (scanner_at s p)
  = scanner_at s (Z.min (charCount (new_StringScanner s)) (p + k)).
Proof. reflexivity. Qed.

End Anchored.

(** Anchored matching, in every state before the end of input (inputs
    shorter than 2^53 units, as every JavaScript string is): [consumeMatch]
    with a sticky pattern runs the pattern exactly at the storage offset of
    the position; on a match it returns the matched text and moves the
    position by the text's logical length, which never passes the end; on no
    match it returns the empty string and the scanner is as before. *)
Theorem consumeMatch_anchored (s : jsstring) (p : Z) (regex : RegExp) :
  0 <= p < charCount (new_StringScanner s) ->
  Z.of_nat (length s) < 2 ^ 53 ->
  sticky regex = true ->
  match matcher regex s (Z.to_nat (byteIndexOf (scanner_at s p))) with
  | None =>
      consumeMatch regex (scanner_at s p)
      = (Return emptyString, set_lastIndex regex (Some 0), scanner_at s p)
  | Some e =>
      let text := substring s (Z.to_nat (byteIndexOf (scanner_at s p))) e in
      consumeMatch regex (scanner_at s p)
      = (Return text, set_lastIndex regex (Some (Z.of_nat e)),
         scanner_at s (p + _charLength (scanner_at s p) text))
      /\ p + _charLength (scanner_at s p) text <= charCount (new_StringScanner s)
  end.
Proof.
  intros Hp Hlen St.
  assert (Hb : byteIndexOf (scanner_at s p)
               = Z.of_nat (byteOffset (code_points s) (Z.to_nat p))).
  { unfold byteIndexOf, scanner_at. cbn [chars charIndex set_charIndex].
    now rewrite new_chars. }
  assert (Hg : get (charsToBytes (scanner_at s p)) (charIndex (scanner_at s p))
               = Some (byteIndexOf (scanner_at s p))).
  { rewrite Hb. cbn [scanner_at set_charIndex charsToBytes charIndex].
    now apply get_charsToBytes. }
  assert (Hle : (byteOffset (code_points s) (Z.to_nat p) <= length s)%nat).
  { rewrite <- (concat_code_points s) at 2. apply byteOffset_le. }
  unfold consumeMatch. rewrite St, Hg. cbn [negb].
  replace (string (scanner_at s p)) with s by (symmetry; apply new_string).
  unfold exec. cbn [global sticky lastIndex set_lastIndex groups matcher].
  rewrite St, andb_false_r, orb_true_r.
  set (b := byteIndexOf (scanner_at s p)) in *.
  assert (Hto : ToLength (Some b) = b).
  { unfold ToLength. cbn [ToIntegerOrInfinity]. lia. }
  rewrite Hto.
  destruct (Z.ltb_spec (Z.of_nat (length s)) b); [lia|].
  cbn [exec_loop matcher sticky set_lastIndex].
  destruct (Nat.ltb_spec (length s) (Z.to_nat b)); [lia|].
  rewrite St.
  destruct (matcher regex s (Z.to_nat b)) as [e|]; [|reflexivity].
  cbn [result_length match0].
  destruct (Z.eqb_spec (Z.of_nat (S (groups regex))) 0); [lia|].
  cbv zeta.
  assert (Hcl : p + _charLength (scanner_at s p) (substring s (Z.to_nat b) e)
                <= charCount (new_StringScanner s)).
  { unfold substring. rewrite Hb, Nat2Z.id.
    pose proof (skipn_byteOffset (code_points s) (Z.to_nat p)) as K.
    rewrite concat_code_points in K. rewrite K.
    pose proof (charLength_prefix_le s p (Z.to_nat p)
                  (e - byteOffset (code_points s) (Z.to_nat p))) as Q.
    rewrite length_skipn in Q. rewrite new_charCount in *. lia. }
  split; [|exact Hcl].
  rewrite advance_scanner_at, Z.min_r by exact Hcl. reflexivity.
Qed.

(** An instance: Scenario C's first call. *)
Lemma consumeMatch_anchored_witness :
  consumeMatch digits_sticky (scanner_at (js "  42px"%string) 2)
  = (Return (js "42"%string), set_lastIndex digits_sticky (Some 4),
     scanner_at (js "  42px"%string) 4)
  /\ 2 + 2 <= 6.
Proof.
  refine (consumeMatch_anchored (js "  42px"%string) 2 digits_sticky _ _ _).
  - rewrite new_charCount. vm_compute. split; [discriminate | reflexivity].
  - vm_compute. reflexivity.
  - reflexivity.
Defined.

(** ** What does hold at the end of input *)

Lemma advance_at_end k sc :
  0 <= k -> charIndex sc = charCount sc -> advance k sc = sc.
Proof.
  intros Hk E. unfold advance. rewrite Z.min_l by lia. rewrite <- E.
  apply set_charIndex_id.
Qed.

(** At the end of input, [consume] (with a count that is not negative),
    [consumeString], [consumeStringFast] and [consumeMatchFn] return the
    empty string and leave the scanner as it was, and every consuming
    operation leaves the position at the end. *)
Theorem end_of_input_literal_predicate (s : jsstring) :
  let sc := scanner_at s (charCount (new_StringScanner s)) in
  (forall c, 0 <= c -> consume c sc = (Str emptyString, sc))
  /\ (forall L, consumeString L sc = (emptyString, sc))
  /\ (forall L, consumeStringFast L sc = (emptyString, sc))
  /\ (forall fn, consumeMatchFn fn sc = (emptyString, sc))
  /\ (forall o, consuming o = true -> forward o -> snd (run o sc) = sc).
Proof.
  cbv zeta. set (sc := scanner_at s (charCount (new_StringScanner s))).
  assert (E : charIndex sc = charCount sc) by reflexivity.
  assert (P : forall c, peek c sc = Str emptyString).
  { intro c. unfold peek. rewrite E, Z.leb_refl. reflexivity. }
  assert (F : forall L, consumeStringFast L sc = (emptyString, sc)).
  { intro L. unfold consumeStringFast. rewrite P. now destruct L. }
  assert (A : forall k, 0 <= k -> advance k sc = sc).
  { intros k Hk. now apply advance_at_end. }
  assert (G : forall L, consumeString L sc = (emptyString, sc)).
  { intro L. unfold consumeString. rewrite F. cbn [truthy emptyString].
    destruct (negb (multiByteMode sc)); [reflexivity|].
    rewrite P. destruct L as [|x L]; [now rewrite Z.eqb_refl|].
    cbn [strict_eq str_eqb emptyString]. now rewrite andb_false_r. }
  assert (H : forall fn, consumeMatchFn fn sc = (emptyString, sc)).
  { intro fn. unfold consumeMatchFn. rewrite E, Z.sub_diag. cbn [Z.to_nat consumeMatchFn_loop].
    now rewrite E, Z.ltb_irrefl. }
  repeat split; auto.
  - intros c Hc. unfold consume. now rewrite P, A.
  - intros o C Fw. destruct o; try discriminate C; cbn [run returned returns snd].
    + unfold consume. cbn [snd]. now apply A.
    + unfold consumeMatch. destruct (negb (sticky regex)); [reflexivity|].
      destruct (exec _ _) as [[res|] re']; cbn [snd]; [|reflexivity].
      destruct (result_length res =? 0); cbn [snd]; [reflexivity|].
      apply A, charLength_nonneg.
    + now rewrite H.
    + now rewrite G.
    + now rewrite F.
    + unfold consumeUntilMatch. destruct (negb (global regex)); [reflexivity|].
      destruct (exec _ _) as [[res|] re']; cbn [snd]; [|reflexivity].
      match goal with
      | |- context [if ?b then _ else _] => destruct b
      end; cbn [snd]; [reflexivity|].
      apply A, charLength_nonneg.
    + unfold consumeUntilString.
      destruct (_ <=? 0); cbn [snd]; [reflexivity|].
      apply A, charLength_nonneg.
Qed.

(** ** The scenarios of the specification *)

(** Scenario A. *)
Lemma scenario_ascii_literal :
  let sc := new_StringScanner (js "<foo>"%string) in
  consumeStringFast (js "<foo"%string) sc = (js "<foo"%string, advance 4 sc)
  /\ charIndex (advance 4 sc) = 4
  /\ peek 1 (advance 4 sc) = Str (js ">"%string).
Proof. vm_compute. repeat split. Qed.

(** Scenario B: the text returned is the three units of the opening tag and
    the two of the pair, four characters; the position is then 4, at storage
    offset 5, before the closing tag. *)
Lemma scenario_multi_byte :
  let sc := new_StringScanner pile_of_poo in
  consumeUntilString (js "</a>"%string) sc
  = (js "<a>"%string ++ [55357; 56489]%N, advance 4 sc)
  /\ charIndex (advance 4 sc) = 4
  /\ byteIndexOf (advance 4 sc) = 5
  /\ peek 4 (advance 4 sc) = Str (js "</a>"%string).
Proof. vm_compute. repeat split. Qed.

(** Scenario D. *)
Lemma scenario_scan_ahead_regex :
  let sc := new_StringScanner (js "abc123def"%string) in
  consumeUntilMatch digits_global sc
  = (Return (js "abc"%string), set_lastIndex digits_global (Some 6), advance 3 sc)
  /\ peek 3 (advance 3 sc) = Str (js "123"%string).
Proof. vm_compute. repeat split. Qed.

(** Scenario E, the predicate being equality with a space. *)
Lemma scenario_predicate :
  let sc := new_StringScanner (js "   hello"%string) in
  consumeMatchFn (fun v => strict_eq v (Str (js " "%string))) sc
  = (js "   "%string, advance 3 sc)
  /\ charIndex (advance 3 sc) = 3.
Proof. vm_compute. repeat split. Qed.

(** An instance of [non_low_search_on_boundary]: Scenario B's search. *)
Lemma non_low_search_on_boundary_witness :
  char_boundary pile_of_poo
    (indexOf pile_of_poo (js "</a>"%string)
       (Some (byteIndexOf (scanner_at pile_of_poo 0)))).
Proof.
  apply non_low_search_on_boundary.
  - rewrite new_charCount. vm_compute. split; discriminate.
  - reflexivity.
  - vm_compute. discriminate.
Defined.

(** ** Peeking *)

Section Peeking.

Variable s : jsstring.
Let n := charCount (new_StringScanner s).

Lemma chars_from_length p :
  0 <= p <= n -> Z.of_nat (length (chars_from s p)) = n - p.
Proof.
  intro H. unfold chars_from, n in *. rewrite new_charCount in *.
  rewrite length_skipn. lia.
Qed.

Lemma chars_from_nonempty p k :
  0 <= p < n -> (0 < k)%nat -> concat (firstn k (chars_from s p)) <> [].
Proof.
  intros H K. unfold chars_from, n in *. rewrite new_charCount in H.
  apply range_nonempty; lia.
Qed.

Lemma peek_from p c :
  0 <= p <= n -> 0 <= c ->
  peek c (scanner_at s p) = Str (concat (firstn (Z.to_nat c) (chars_from s p))).
Proof. intros. now apply peek_chars. Qed.

End Peeking.

(** [peek(c)] with a count that is not negative, at a position within the
    input, returns the next [c] characters, whole ones, or as many as are
    left: the text is made of [min(c, charCount - position)] characters, and
    it is empty exactly when [c] is 0 or the position is the end. *)
Theorem peek_next_characters (s : jsstring) (p c : Z) :
  0 <= p <= charCount (new_StringScanner s) -> 0 <= c ->
  exists text,
    peek c (scanner_at s p) = Str text
    /\ text = concat (firstn (Z.to_nat c) (chars_from s p))
    /\ code_points text = firstn (Z.to_nat c) (chars_from s p)
    /\ Z.of_nat (length (code_points text))
       = Z.min c (charCount (new_StringScanner s) - p)
    /\ (text = [] <-> c = 0 \/ p = charCount (new_StringScanner s)).
Proof.
  intros Hp Hc. eexists. split; [now apply peek_from|]. split; [reflexivity|].
  pose proof (chars_from_length s p Hp) as L.
  split; [apply code_points_range|]. split.
  - unfold chars_from in *. rewrite code_points_range, length_firstn. lia.
  - split.
    + intro E. destruct (Z.eq_dec c 0) as [|C]; [now left|]. right.
      destruct (Z.eq_dec p (charCount (new_StringScanner s))) as [|P]; [assumption|].
      exfalso. revert E. apply chars_from_nonempty; lia.
    + intros [-> | ->]; [reflexivity|].
      destruct (chars_from s (charCount (new_StringScanner s))) eqn:E.
      * now rewrite firstn_nil.
      * simpl in L. lia.
Qed.

Lemma peek_next_characters_witness :
  exists text,
    peek 5 (scanner_at pile_of_poo 3) = Str text
    /\ text = concat (firstn (Z.to_nat 5) (chars_from pile_of_poo 3))
    /\ code_points text = firstn (Z.to_nat 5) (chars_from pile_of_poo 3)
    /\ Z.of_nat (length (code_points text))
       = Z.min 5 (charCount (new_StringScanner pile_of_poo) - 3)
    /\ (text = [] <-> 5 = 0 \/ 3 = charCount (new_StringScanner pile_of_poo)).
Proof.
  apply peek_next_characters; [rewrite new_charCount; vm_compute; split; discriminate | lia].
Defined.

(** [peek(c)] with a negative count, before the end of input: the empty
    string while [position + c] is not negative, and all the rest of the
    input once it is ([charsToBytes] read at a negative index is
    [undefined], which [slice] takes for the end). *)
Theorem peek_negative_count (s : jsstring) (p c : Z) :
  0 <= p < charCount (new_StringScanner s) -> c < 0 ->
  peek c (scanner_at s p)
  = Str (if 0 <=? p + c then emptyString else concat (chars_from s p)).
Proof.
  intros Hp Hc. unfold peek. cbn [scanner_at set_charIndex charIndex charCount chars charsToBytes string].
  destruct (Z.leb_spec (charCount (new_StringScanner s)) p); [lia|].
  destruct (Z.eqb_spec c 1); [lia|]. f_equal.
  rewrite new_string, get_charsToBytes by lia.
  destruct (Z.leb_spec 0 (p + c)).
  - rewrite get_charsToBytes by lia. apply slice_backwards.
    split; [lia|]. apply inj_le, byteOffset_mono. lia.
  - rewrite get_charsToBytes_out by lia. apply slice_code_points_end.
Qed.

Lemma peek_negative_count_witness :
  peek (-3) (scanner_at (js "abcd"%string) 1)
  = Str (if 0 <=? 1 + -3 then emptyString
         else concat (chars_from (js "abcd"%string) 1)).
Proof.
  apply peek_negative_count; [rewrite new_charCount; vm_compute; split; [discriminate | reflexivity] | lia].
Defined.

(** ** Consuming in pieces *)

Lemma firstn_plus {A} (l : list A) : forall a b,
  firstn (a + b) l = firstn a l ++ firstn b (skipn a l).
Proof.
  induction l as [|x l IH]; intros [|a] b; simpl; try reflexivity.
  - now rewrite firstn_nil.
  - now rewrite IH.
Qed.

(** Consuming [a] characters and then [b] returns, in two pieces, the text
    that consuming [a + b] at once returns, and ends in the same state. *)
Theorem consume_in_pieces (s : jsstring) (p a b : Z) :
  0 <= p <= charCount (new_StringScanner s) -> 0 <= a -> 0 <= b ->
  exists t1 t2 sc1 sc2,
    consume a (scanner_at s p) = (Str t1, sc1)
    /\ consume b sc1 = (Str t2, sc2)
    /\ consume (a + b) (scanner_at s p) = (Str (t1 ++ t2), sc2).
Proof.
  intros Hp Ha Hb. unfold consume.
  pose proof (chars_from_length s p Hp) as L.
  set (n := charCount (new_StringScanner s)) in *.
  rewrite !advance_scanner_at. fold n.
  rewrite (peek_from s p a), (peek_from s p (a + b)) by (fold n; lia).
  do 4 eexists. split; [reflexivity|].
  rewrite advance_scanner_at. fold n.
  rewrite (peek_from s (Z.min n (p + a)) b) by (fold n; lia).
  split; [reflexivity|]. f_equal.
  - f_equal. rewrite <- concat_app. f_equal.
    replace (Z.to_nat (a + b)) with (Z.to_nat a + Z.to_nat b)%nat by lia.
    rewrite firstn_plus. f_equal. f_equal.
    unfold chars_from in *. rewrite skipn_skipn.
    destruct (Z.leb_spec (p + a) n).
    + f_equal. lia.
    + rewrite !skipn_all2; [reflexivity | |]; unfold n in *;
        rewrite new_charCount in *; lia.
  - f_equal. lia.
Qed.

Lemma consume_in_pieces_witness :
  exists t1 t2 sc1 sc2,
    consume 2 (scanner_at pile_of_poo 2) = (Str t1, sc1)
    /\ consume 9 sc1 = (Str t2, sc2)
    /\ consume (2 + 9) (scanner_at pile_of_poo 2) = (Str (t1 ++ t2), sc2).
Proof.
  apply consume_in_pieces; [rewrite new_charCount; vm_compute; split; discriminate | lia | lia].
Defined.

(** ** Going back *)

(** Backtracking: whatever calls were made from a position within the
    input, with whatever arguments, [reset] to that position gives back the
    scanner as it was there. *)
Theorem reset_restores (s : jsstring) (p : Z) (os : list op) :
  0 <= p <= charCount (new_StringScanner s) ->
  reset p (run_all os (scanner_at s p)) = scanner_at s p.
Proof.
  intro Hp. rewrite (run_all_moved os (scanner_at s p)).
  unfold reset. cbn [set_charIndex scanner_at charCount charIndex].
  destruct (Z.leb_spec 0 p); [|lia]. rewrite Z.min_r by lia. reflexivity.
Qed.

Lemma reset_restores_witness :
  reset 1 (run_all [Consume 2; ConsumeMatch digits_sticky; Advance (-7)]
             (scanner_at (js "a42"%string) 1))
  = scanner_at (js "a42"%string) 1.
Proof.
  apply reset_restores. rewrite new_charCount. vm_compute. split; discriminate.
Defined.

Section Above.

Lemma advance_bounded_above k sc : bounded_above sc -> bounded_above (advance k sc).
Proof. unfold bounded_above, advance. simpl. lia. Qed.

Lemma reset_bounded_above i sc : bounded_above sc -> in_range (reset i sc).
Proof.
  unfold bounded_above, in_range, reset. simpl. destruct (Z.leb_spec 0 i); lia.
Qed.

Lemma in_range_bounded_above sc : in_range sc -> bounded_above sc.
Proof. unfold bounded_above, in_range. lia. Qed.

Lemma loop_bounded_above fn : forall fuel sc,
  bounded_above sc -> bounded_above (consumeMatchFn_loop fn fuel sc).
Proof.
  induction fuel as [|fuel IH]; intros sc H; simpl; auto.
  destruct (negb (isEnd sc) && fn (peek 1 sc)); auto using advance_bounded_above.
Qed.

Lemma consumeStringFast_bounded_above str sc :
  bounded_above sc -> bounded_above (snd (consumeStringFast str sc)).
Proof.
  intro R. unfold consumeStringFast.
  split_ifs; auto using advance_bounded_above.
Qed.

Lemma run_bounded_above o sc :
  bounded_above sc -> bounded_above (snd (run o sc)).
Proof.
  intro R.
  destruct o; simpl in *; auto using advance_bounded_above.
  - apply in_range_bounded_above. now apply reset_bounded_above.
  - unfold consumeMatch. destruct (negb (sticky regex)); [assumption|].
    destruct (exec _ _) as [[res|] re']; simpl; [|assumption].
    destruct (result_length res =? 0); simpl; auto using advance_bounded_above.
  - unfold consumeMatchFn. simpl. now apply loop_bounded_above.
  - unfold consumeString.
    pose proof (consumeStringFast_bounded_above stringToConsume sc R) as M.
    destruct (consumeStringFast stringToConsume sc) as [fast sc1]. simpl in M.
    split_ifs; auto using advance_bounded_above.
  - now apply consumeStringFast_bounded_above.
  - unfold consumeUntilMatch. destruct (negb (global regex)); [assumption|].
    destruct (exec _ _) as [[res|] re']; simpl; [|assumption].
    match goal with
    | |- context [if ?b then _ else _] => destruct b; simpl
    end; auto using advance_bounded_above.
  - unfold consumeUntilString.
    destruct (_ <=? 0); simpl; auto using advance_bounded_above.
Qed.

Lemma run_all_bounded_above : forall os sc,
  bounded_above sc -> bounded_above (run_all os sc).
Proof.
  induction os as [|o os IH]; intros sc R; simpl; [assumption|].
  apply IH. now apply run_bounded_above.
Qed.

End Above.

(** After any sequence of calls on a fresh scanner, negative counts
    included, the position is at most [charCount], which is still the number
    of characters of the input; and [reset], with any index, then puts the
    position within the input. *)
Theorem never_past_end_and_reset_recovers (s : jsstring) (os : list op) (i : Z) :
  charIndex (run_all os (new_StringScanner s))
  <= charCount (run_all os (new_StringScanner s))
  /\ charCount (run_all os (new_StringScanner s)) = Z.of_nat (length (code_points s))
  /\ in_range (reset i (run_all os (new_StringScanner s))).
Proof.
  pose proof (run_all_bounded_above os _
                (in_range_bounded_above _ (new_in_range s))) as B.
  split; [apply B|]. split.
  - rewrite (moved_charCount _ _ (run_all_moved os (new_StringScanner s))).
    apply new_charCount.
  - now apply reset_bounded_above.
Qed.

(** ** Consuming by predicate *)

Lemma accepted_prefix fn : forall cs,
  firstn (length (accepted fn cs)) cs = accepted fn cs.
Proof.
  induction cs as [|c cs IH]; simpl; [reflexivity|].
  destruct (fn (Str c)); simpl; [now rewrite IH | reflexivity].
Qed.

Lemma accepted_length_le fn : forall cs,
  (length (accepted fn cs) <= length cs)%nat.
Proof.
  induction cs as [|c cs IH]; simpl; [lia|].
  destruct (fn (Str c)); simpl; lia.
Qed.

Section Predicate.

Variable s : jsstring.
Variable fn : jsval -> bool.
Let n := charCount (new_StringScanner s).

Lemma chars_from_step p :
  0 <= p < n ->
  exists c, peek 1 (scanner_at s p) = Str c
            /\ chars_from s p = c :: chars_from s (p + 1).
Proof.
  intro Hp. pose proof (peek_from s p 1 ltac:(fold n; lia) ltac:(lia)) as P.
  pose proof (chars_from_length s p ltac:(fold n; lia)) as L. fold n in L.
  unfold chars_from in *.
  destruct (skipn (Z.to_nat p) (code_points s)) as [|c rest] eqn:E;
    [simpl in L; lia|].
  exists c. split.
  - rewrite P. simpl. now rewrite app_nil_r.
  - f_equal. replace (Z.to_nat (p + 1)) with (1 + Z.to_nat p)%nat by lia.
    rewrite <- skipn_skipn, E. reflexivity.
Qed.

Lemma loop_accepts : forall fuel p,
  0 <= p <= n -> n - p <= Z.of_nat fuel ->
  consumeMatchFn_loop fn fuel (scanner_at s p)
  = scanner_at s (p + Z.of_nat (length (accepted fn (chars_from s p)))).
Proof.
  induction fuel as [|fuel IH]; intros p Hp Hf.
  - assert (p = n) as -> by lia. simpl.
    pose proof (chars_from_length s n ltac:(fold n; lia)) as L. fold n in L.
    destruct (chars_from s n); [simpl; now rewrite Z.add_0_r | simpl in L; lia].
  - cbn [consumeMatchFn_loop]. unfold isEnd.
    cbn [scanner_at set_charIndex charIndex charCount]. fold n.
    destruct (Z.leb_spec n p).
    + assert (p = n) as -> by lia. cbn [negb andb].
      pose proof (chars_from_length s n ltac:(fold n; lia)) as L. fold n in L.
      destruct (chars_from s n); [simpl; now rewrite Z.add_0_r | simpl in L; lia].
    + cbn [negb andb].
      destruct (chars_from_step p ltac:(lia)) as (c & P & E).
      fold (scanner_at s p). rewrite P, E. cbn [accepted].
      destruct (fn (Str c)).
      * rewrite advance_scanner_at. fold n. rewrite Z.min_r by lia.
        rewrite IH by lia. f_equal. cbn [length]. lia.
      * simpl. now rewrite Z.add_0_r.
Qed.

End Predicate.

Lemma consumeMatchFn_accepts (s : jsstring) (p : Z) (fn : jsval -> bool) :
  0 <= p <= charCount (new_StringScanner s) ->
  consumeMatchFn fn (scanner_at s p)
  = (concat (accepted fn (chars_from s p)),
     scanner_at s (p + Z.of_nat (length (accepted fn (chars_from s p))))).
Proof.
  intro Hp. unfold consumeMatchFn.
  cbn [scanner_at set_charIndex charIndex charCount].
  fold (scanner_at s p). rewrite loop_accepts by lia.
  set (k := length (accepted fn (chars_from s p))).
  cbn [scanner_at set_charIndex charIndex charCount string charsToBytes].
  f_equal. rewrite new_string.
  pose proof (accepted_length_le fn (chars_from s p)) as K. fold k in K.
  pose proof (chars_from_length s p Hp) as L.
  pose proof (accepted_prefix fn (chars_from s p)) as A. fold k in A.
  destruct (Z.ltb_spec p (p + Z.of_nat k)).
  - rewrite slice_range by lia.
    replace (Z.to_nat (p + Z.of_nat k - p)) with k by lia.
    fold (chars_from s p). now rewrite A.
  - assert (k = 0%nat) as K0 by lia. rewrite K0 in A. simpl in A. now rewrite <- A.
Qed.

(** [consumeMatchFn] returns the longest run of characters at the position
    that the predicate accepts, each given to it whole, and moves the
    position past that run. *)
Theorem consumeMatchFn_longest_run (s : jsstring) (p : Z) (fn : jsval -> bool) :
  0 <= p <= charCount (new_StringScanner s) ->
  consumeMatchFn fn (scanner_at s p)
  = (concat (accepted fn (chars_from s p)),
     scanner_at s (p + Z.of_nat (length (accepted fn (chars_from s p))))).
Proof. apply consumeMatchFn_accepts. Qed.

Lemma consumeMatchFn_longest_run_witness :
  consumeMatchFn (fun v => strict_eq v (Str (js " "%string)))
    (scanner_at (js "   hello"%string) 1)
  = (concat (accepted (fun v => strict_eq v (Str (js " "%string)))
               (chars_from (js "   hello"%string) 1)),
     scanner_at (js "   hello"%string)
       (1 + Z.of_nat (length (accepted (fun v => strict_eq v (Str (js " "%string)))
                                (chars_from (js "   hello"%string) 1))))).
Proof.
  apply consumeMatchFn_longest_run. rewrite new_charCount. vm_compute. split; discriminate.
Defined.

(** ** Matching a literal *)

Section Literal.

Lemma str_eqb_eq : forall a b, str_eqb a b = true <-> a = b.
Proof.
  induction a as [|x a IH]; intros [|y b]; simpl; split; try easy.
  - rewrite andb_true_iff, N.eqb_eq, IH. now intros [-> ->].
  - intro E. injection E as -> ->. rewrite N.eqb_refl. now apply IH.
Qed.

Lemma strict_eq_Str a b : strict_eq (Str a) (Str b) = true <-> a = b.
Proof. apply str_eqb_eq. Qed.

Lemma firstn_firstn_length {A} (l : list A) k :
  firstn (length (firstn k l)) l = firstn k l.
Proof.
  rewrite length_firstn. destruct (Nat.le_gt_cases k (length l)).
  - now rewrite Nat.min_l.
  - rewrite Nat.min_r by lia. now rewrite firstn_all, firstn_all2 by lia.
Qed.

Lemma Forall_firstn' {A} (P : A -> Prop) l : forall k,
  Forall P l -> Forall P (firstn k l).
Proof.
  induction l as [|a l IH]; intros [|k] H; simpl; auto.
  inversion H; auto.
Qed.

Lemma concat_length_ge (l : list jsstring) :
  Forall (fun c => c <> []) l -> (length l <= length (concat l))%nat.
Proof.
  induction 1 as [|c l Hc _ IH]; simpl; [lia|].
  rewrite length_app. destruct c; [congruence | simpl; lia].
Qed.

Lemma nonempty_all_single (l : list jsstring) :
  Forall (fun c => c <> []) l -> length (concat l) = length l ->
  Forall single l.
Proof.
  induction 1 as [|c l Hc Hl IH]; simpl; intro E; [constructor|].
  rewrite length_app in E. pose proof (concat_length_ge l Hl).
  destruct c as [|x c]; [congruence|]. simpl in E.
  constructor; [unfold single; simpl; lia | apply IH; lia].
Qed.

Variable s : jsstring.
Variable p : Z.
Hypothesis Hp : 0 <= p <= charCount (new_StringScanner s).

(** A literal that [peek] shows is at the position, and advancing by the
    count peeked is advancing by the literal's characters. *)
Lemma peeked_literal k L :
  0 <= k -> peek k (scanner_at s p) = Str L -> L <> [] ->
  literal_at s p L
  /\ advance k (scanner_at s p)
     = scanner_at s (p + Z.of_nat (length (code_points L))).
Proof.
  intros Hk P NE. rewrite peek_from in P by assumption. injection P as P.
  split; [split; eauto|].
  rewrite advance_scanner_at. f_equal. subst L.
  unfold chars_from. rewrite code_points_range, length_firstn, length_skipn.
  rewrite new_charCount in *. lia.
Qed.

Lemma consumeStringFast_dichotomy L :
  (exists k, 0 <= k /\ L <> [] /\ peek k (scanner_at s p) = Str L
             /\ consumeStringFast L (scanner_at s p)
                = (L, advance k (scanner_at s p)))
  \/ (consumeStringFast L (scanner_at s p) = (emptyString, scanner_at s p)
      /\ forall k, L <> [] -> L = concat (firstn k (chars_from s p)) ->
                   length L = length (firstn k (chars_from s p)) -> False).
Proof.
  unfold consumeStringFast.
  destruct (strict_eq (peek 1 (scanner_at s p)) (first_unit L)) eqn:C1.
  - destruct L as [|x L]; [rewrite peek_from in C1 by (assumption || lia); discriminate|].
    cbn [first_unit] in C1. rewrite peek_from in C1 by (assumption || lia).
    apply strict_eq_Str in C1.
    destruct (Z.eqb_spec (Z.of_nat (length (x :: L))) 1) as [E1|E1].
    + left. exists 1. destruct L; [|simpl in E1; lia].
      rewrite peek_from by (assumption || lia).
      repeat split; try lia; try discriminate. now rewrite C1.
    + destruct (strict_eq (peek (Z.of_nat (length (x :: L))) (scanner_at s p))
                  (Str (x :: L))) eqn:C2.
      * left. exists (Z.of_nat (length (x :: L))).
        rewrite peek_from in * by (assumption || lia).
        apply strict_eq_Str in C2.
        repeat split; try lia; try discriminate. now rewrite C2.
      * right. split; [reflexivity|]. intros k _ E Len.
        rewrite peek_from in C2 by (assumption || lia).
        rewrite Nat2Z.id, Len, firstn_firstn_length, <- E in C2.
        pose proof (proj2 (strict_eq_Str (x :: L) (x :: L)) eq_refl). congruence.
  - right. split; [reflexivity|]. intros k NE E Len.
    rewrite peek_from in C1 by (assumption || lia).
    assert (S1 : Forall single (firstn k (chars_from s p))).
    { apply nonempty_all_single.
      - apply Forall_firstn', Forall_skipn', code_points_nonempty.
      - rewrite <- E. exact Len. }
    destruct (firstn k (chars_from s p)) as [|c f] eqn:F;
      [simpl in E; congruence|].
    destruct (chars_from s p) as [|c' r] eqn:R;
      [rewrite firstn_nil in F; discriminate|].
    destruct k as [|k]; [discriminate|]. cbn [firstn] in F. injection F as -> F.
    apply Forall_inv in S1. destruct c as [|x [|y c]]; try discriminate S1.
    cbn [concat app] in E. rewrite E in C1. cbn [first_unit Z.to_nat Pos.to_nat firstn concat app] in C1.
    simpl in C1. rewrite N.eqb_refl in C1. discriminate.
Qed.

End Literal.

Lemma single_mode_lengths s p k :
  multiByteMode (scanner_at s p) = false ->
  length (concat (firstn k (chars_from s p))) = length (firstn k (chars_from s p)).
Proof.
  intro M. cbn [scanner_at set_charIndex multiByteMode] in M.
  rewrite new_multiByteMode in M. apply negb_false_iff, Z.eqb_eq in M.
  change (byteOffset (chars_from s p) k = length (firstn k (chars_from s p))).
  apply single_byteOffset, Forall_skipn', code_points_all_single. lia.
Qed.

Lemma consumeString_dichotomy (s : jsstring) (p : Z) (L : jsstring) :
  0 <= p <= charCount (new_StringScanner s) ->
  (exists k, 0 <= k /\ L <> [] /\ peek k (scanner_at s p) = Str L
             /\ consumeString L (scanner_at s p)
                = (L, advance k (scanner_at s p)))
  \/ (consumeString L (scanner_at s p) = (emptyString, scanner_at s p)
      /\ ~ literal_at s p L).
Proof.
  intro Hp. unfold consumeString.
  destruct (consumeStringFast_dichotomy s p Hp L)
    as [(k & Hk & NE & P & ->) | (-> & No)].
  - left. exists k. destruct L; [congruence|]. cbn [truthy]. auto.
  - cbn [truthy emptyString].
    destruct (multiByteMode (scanner_at s p)) eqn:M; cbn [negb].
    + match goal with
      | |- context [if ?b then _ else _] => destruct b eqn:C2
      end.
      * apply andb_prop in C2. destruct C2 as [C2 C3].
        apply negb_true_iff, Z.eqb_neq in C2.
        assert (NE : L <> []) by (intros ->; now apply C2).
        assert (P : peek (_charLength (scanner_at s p) L) (scanner_at s p) = Str L).
        { destruct (peek _ _) as [|t]; [discriminate|].
          apply strict_eq_Str in C3. now subst. }
        left. exists (_charLength (scanner_at s p) L).
        auto using charLength_nonneg.
      * right. split; [reflexivity|]. intros [NE [k E]].
        assert (CL : _charLength (scanner_at s p) L
                     = Z.of_nat (length (firstn k (chars_from s p)))).
        { rewrite charLength_multi by assumption. rewrite E at 1.
          unfold chars_from. now rewrite code_points_range. }
        rewrite CL in C2.
        rewrite peek_from in C2 by (assumption || lia).
        rewrite Nat2Z.id, firstn_firstn_length, <- E in C2.
        rewrite (proj2 (strict_eq_Str L L) eq_refl), andb_true_r in C2.
        apply negb_false_iff, Z.eqb_eq in C2.
        apply (No k NE E). lia.
    + right. split; [reflexivity|]. intros [NE [k E]].
      apply (No k NE E). rewrite E at 1. now apply single_mode_lengths.
Qed.

(** [consumeString(L)], at a position within the input: when [L] is not
    empty and is made of the characters at the position, it returns [L] and
    moves the position by the number of characters of [L]; otherwise it
    returns the empty string and the scanner is as before. *)
Theorem consumeString_matches_literal (s : jsstring) (p : Z) (L : jsstring) :
  0 <= p <= charCount (new_StringScanner s) ->
  (literal_at s p L ->
   consumeString L (scanner_at s p)
   = (L, scanner_at s (p + Z.of_nat (length (code_points L)))))
  /\ (~ literal_at s p L ->
      consumeString L (scanner_at s p) = (emptyString, scanner_at s p)).
Proof.
  intro Hp.
  destruct (consumeString_dichotomy s p L Hp)
    as [(k & Hk & NE & P & ->) | (-> & No)].
  - destruct (peeked_literal s p Hp k L Hk P NE) as [At ->].
    split; [reflexivity | tauto].
  - split; [tauto | reflexivity].
Qed.

Lemma consumeString_matches_literal_witness :
  (literal_at pile_of_poo 3 [55357; 56489; 60]%N ->
   consumeString [55357; 56489; 60]%N (scanner_at pile_of_poo 3)
   = ([55357; 56489; 60]%N,
      scanner_at pile_of_poo
        (3 + Z.of_nat (length (code_points [55357; 56489; 60]%N)))))
  /\ (~ literal_at pile_of_poo 3 [55357; 56489; 60]%N ->
      consumeString [55357; 56489; 60]%N (scanner_at pile_of_poo 3)
      = (emptyString, scanner_at pile_of_poo 3)).
Proof.
  apply consumeString_matches_literal.
  rewrite new_charCount. vm_compute. split; discriminate.
Defined.

(** [consumeStringFast(L)] for a literal whose characters all occupy one
    storage unit: when [L] is not empty and is made of the characters at the
    position, it returns [L] and moves the position by [L.length];
    otherwise it returns the empty string and the scanner is as before. *)
Theorem consumeStringFast_matches_literal (s : jsstring) (p : Z) (L : jsstring) :
  0 <= p <= charCount (new_StringScanner s) ->
  Forall single (code_points L) ->
  (literal_at s p L ->
   consumeStringFast L (scanner_at s p)
   = (L, scanner_at s (p + Z.of_nat (length L))))
  /\ (~ literal_at s p L ->
      consumeStringFast L (scanner_at s p) = (emptyString, scanner_at s p)).
Proof.
  intros Hp S1. rewrite <- (single_units_length L S1).
  destruct (consumeStringFast_dichotomy s p Hp L)
    as [(k & Hk & NE & P & ->) | (-> & No)].
  - destruct (peeked_literal s p Hp k L Hk P NE) as [At ->].
    split; [reflexivity | tauto].
  - split; [|reflexivity]. intros [NE [k E]]. exfalso.
    apply (No k NE E). rewrite <- (single_units_length L S1).
    rewrite E at 1. unfold chars_from. now rewrite code_points_range.
Qed.

Lemma consumeStringFast_matches_literal_witness :
  (literal_at (js "<foo>"%string) 0 (js "<foo"%string) ->
   consumeStringFast (js "<foo"%string) (scanner_at (js "<foo>"%string) 0)
   = (js "<foo"%string,
      scanner_at (js "<foo>"%string) (0 + Z.of_nat (length (js "<foo"%string)))))
  /\ (~ literal_at (js "<foo>"%string) 0 (js "<foo"%string) ->
      consumeStringFast (js "<foo"%string) (scanner_at (js "<foo>"%string) 0)
      = (emptyString, scanner_at (js "<foo>"%string) 0)).
Proof.
  apply consumeStringFast_matches_literal.
  - rewrite new_charCount. vm_compute. split; discriminate.
  - repeat constructor.
Defined.

(** ** What is returned is what is passed over *)

Section Spans.

Variable s : jsstring.
Let n := charCount (new_StringScanner s).

Lemma scanner_at_0 : scanner_at s 0 = new_StringScanner s.
Proof.
  pose proof (set_charIndex_id (new_StringScanner s)) as H.
  now rewrite new_charIndex in H.
Qed.

Lemma chars_from_skip p q :
  0 <= p <= q -> chars_from s q = skipn (Z.to_nat (q - p)) (chars_from s p).
Proof.
  intro H. unfold chars_from. rewrite skipn_skipn. f_equal. lia.
Qed.

Lemma peek_span p k :
  0 <= p <= n -> 0 <= k ->
  exists q, p <= q <= n
            /\ peek k (scanner_at s p)
               = Str (concat (firstn (Z.to_nat (q - p)) (chars_from s p)))
            /\ advance k (scanner_at s p) = scanner_at s q.
Proof.
  intros Hp Hk. exists (Z.min n (p + k)). split; [lia|]. split.
  - rewrite peek_from by (fold n; lia). f_equal. f_equal.
    pose proof (chars_from_length s p ltac:(fold n; lia)) as L. fold n in L.
    destruct (Z.leb_spec (p + k) n).
    + f_equal. lia.
    + rewrite !firstn_all2 by lia. reflexivity.
  - apply advance_scanner_at.
Qed.

Lemma plain_span o p :
  plain o -> 0 <= p <= n ->
  exists q, p <= q <= n
            /\ run o (scanner_at s p)
               = (Return (Str (concat (firstn (Z.to_nat (q - p)) (chars_from s p)))),
                  scanner_at s q).
Proof.
  intros Pl Hp.
  assert (Stay : exists q, p <= q <= n
            /\ (Return (A:=jsval) (Str emptyString), scanner_at s p)
               = (Return (Str (concat (firstn (Z.to_nat (q - p)) (chars_from s p)))),
                  scanner_at s q)).
  { exists p. split; [lia|]. now rewrite Z.sub_diag. }
  destruct o; try contradiction; cbn [run returns].
  - unfold consume. cbn [fst snd]. cbn [plain] in Pl.
    destruct (peek_span p count Hp Pl) as (q & Hq & -> & ->). eauto.
  - rewrite consumeMatchFn_accepts by (fold n; lia). cbn [fst snd].
    pose proof (accepted_length_le fn (chars_from s p)) as K.
    pose proof (chars_from_length s p ltac:(fold n; lia)) as L. fold n in L.
    exists (p + Z.of_nat (length (accepted fn (chars_from s p)))).
    split; [lia|]. unfold returns. cbn [fst snd].
    replace (Z.to_nat (p + Z.of_nat (length (accepted fn (chars_from s p))) - p))
      with (length (accepted fn (chars_from s p))) by lia.
    now rewrite accepted_prefix.
  - destruct (consumeString_dichotomy s p stringToConsume ltac:(fold n; lia))
      as [(k & Hk & NE & P & ->) | (-> & _)];
      unfold returns; cbn [fst snd]; [|exact Stay].
    destruct (peek_span p k Hp Hk) as (q & Hq & P' & A).
    exists q. split; [lia|]. rewrite A. rewrite P in P'.
    injection P' as P'. now rewrite <- P'.
  - destruct (consumeStringFast_dichotomy s p ltac:(fold n; lia) stringToConsume)
      as [(k & Hk & NE & P & ->) | (-> & _)];
      unfold returns; cbn [fst snd]; [|exact Stay].
    destruct (peek_span p k Hp Hk) as (q & Hq & P' & A).
    exists q. split; [lia|]. rewrite A. rewrite P in P'.
    injection P' as P'. now rewrite <- P'.
Qed.

Lemma transcript_from : forall os p,
  Forall plain os -> 0 <= p <= n ->
  transcript os (scanner_at s p)
  ++ concat (chars_from s (charIndex (run_all os (scanner_at s p))))
  = concat (chars_from s p)
  /\ p <= charIndex (run_all os (scanner_at s p)) <= n.
Proof.
  induction os as [|o os IH]; intros p F Hp.
  - simpl. split; [reflexivity | lia].
  - inversion F as [|? ? Po Pos]; subst.
    destruct (plain_span o p Po Hp) as (q & Hq & R).
    cbn [transcript run_all]. unfold output. rewrite R. cbn [fst snd].
    destruct (IH q Pos ltac:(lia)) as [E B]. split; [|lia].
    rewrite <- app_assoc, E, (chars_from_skip p q) by lia.
    rewrite <- concat_app. now rewrite firstn_skipn.
Qed.

End Spans.

(** After any sequence of calls of [consume] (counts not negative),
    [consumeMatchFn], [consumeString] and [consumeStringFast] on a fresh
    scanner, the strings returned, in order, followed by the characters from
    the final position on, are the input. *)
Theorem transcript_and_rest_are_input (s : jsstring) (os : list op) :
  Forall plain os ->
  transcript os (new_StringScanner s)
  ++ concat (chars_from s (charIndex (run_all os (new_StringScanner s))))
  = s.
Proof.
  intro F. rewrite <- scanner_at_0.
  destruct (transcript_from s os 0 F) as [E _].
  { rewrite new_charCount. lia. }
  rewrite E. unfold chars_from. simpl. apply concat_code_points.
Qed.

Lemma transcript_and_rest_are_input_witness :
  transcript [ConsumeStringFast (js "<a>"%string); Consume 1;
              ConsumeString (js "x"%string);
              ConsumeMatchFn (fun v => negb (strict_eq v (Str (js ">"%string))))]
    (new_StringScanner pile_of_poo)
  ++ concat (chars_from pile_of_poo
       (charIndex
          (run_all [ConsumeStringFast (js "<a>"%string); Consume 1;
                    ConsumeString (js "x"%string);
                    ConsumeMatchFn
                      (fun v => negb (strict_eq v (Str (js ">"%string))))]
             (new_StringScanner pile_of_poo))))
  = pile_of_poo.
Proof.
  apply transcript_and_rest_are_input. repeat constructor. simpl. lia.
Defined.

(** ** The logical length of a piece of the input *)

Section Pieces.

Lemma code_points_cons_bounds : forall b c,
  (length (code_points (c :: b)) <= 1 + length (code_points b))%nat
  /\ (length (code_points b) <= length (code_points (c :: b)))%nat.
Proof.
  induction b as [|d t IH]; intro c.
  - simpl. lia.
  - destruct (IH d) as [A B].
    destruct (is_high c && is_low d) eqn:E.
    + rewrite code_points_pair by assumption. cbn [length]. lia.
    + rewrite code_points_single by assumption. cbn [length]. lia.
Qed.

Lemma code_points_app_le a : forall b,
  (length (code_points (a ++ b))
   <= length (code_points a) + length (code_points b))%nat.
Proof.
  induction a as [|c|c d t E IH|c d t E IH] using code_points_cases; intro b.
  - simpl. lia.
  - apply code_points_cons_bounds.
  - cbn [app]. rewrite !code_points_pair by assumption.
    cbn [length]. specialize (IH b). lia.
  - change ((c :: d :: t) ++ b) with (c :: d :: (t ++ b)).
    rewrite !code_points_single by assumption.
    cbn [length]. specialize (IH b). cbn [app] in IH. lia.
Qed.

End Pieces.

(** [_charLength] of any piece of the scanner's input (a run of its storage
    units) is the number of characters of that piece, in either mode. *)
Theorem charLength_counts_characters (pre str post : jsstring) (p : Z) :
  _charLength (scanner_at (pre ++ str ++ post) p) str
  = Z.of_nat (length (code_points str)).
Proof.
  destruct (multiByteMode (scanner_at (pre ++ str ++ post) p)) eqn:M.
  - now apply charLength_multi.
  - unfold _charLength. rewrite M, orb_true_r. f_equal.
    cbn [scanner_at set_charIndex multiByteMode] in M.
    rewrite new_multiByteMode in M. apply negb_false_iff, Z.eqb_eq in M.
    pose proof (code_points_app_le pre (str ++ post)).
    pose proof (code_points_app_le str post).
    pose proof (code_points_length_le pre).
    pose proof (code_points_length_le str).
    pose proof (code_points_length_le post).
    rewrite !length_app in M. lia.
Qed.

(** ** The empty input *)

Lemma slice_nil a b : slice [] a b = [].
Proof.
  unfold slice, substring. destruct (_ <=? _); [reflexivity|].
  now rewrite skipn_nil, firstn_nil.
Qed.

Lemma substring_nil i e : substring [] i e = [].
Proof. unfold substring. now rewrite skipn_nil, firstn_nil. Qed.

Lemma exec_nil_match r res r' :
  exec r [] = (Some res, r') -> match0 res = [].
Proof.
  unfold exec. destruct (if _ <? _ then _ else _) as [[i e]|]; [|discriminate].
  intro E. injection E as <- _. apply substring_nil.
Qed.

(** On the empty input every consuming call (count not negative for
    [consume]) leaves the scanner as constructed, and returns the empty
    string unless it throws for a missing flag. *)
Theorem empty_input_consumes_nothing (o : op) :
  consuming o = true -> forward o ->
  snd (run o (new_StringScanner [])) = new_StringScanner []
  /\ (fst (run o (new_StringScanner [])) = Return (Str emptyString)
      \/ throws (fst (run o (new_StringScanner [])) ) = true).
Proof.
  intros C F. change (new_StringScanner []) with
    {| charIndex := 0; string := []; chars := []; charCount := 0;
       charsToBytes := []; multiByteMode := false |}.
  set (sc := {| charIndex := 0; string := []; chars := []; charCount := 0;
                charsToBytes := []; multiByteMode := false |}).
  assert (A : forall k, 0 <= k -> advance k sc = sc).
  { intros k Hk. unfold advance, sc, set_charIndex. simpl. f_equal. lia. }
  destruct o; try discriminate C; cbn [run returned returns fst snd].
  - unfold consume. cbn [fst snd]. cbn [forward] in F. rewrite A by assumption.
    split; [reflexivity | now left].
  - unfold consumeMatch. destruct (negb (sticky regex)); [split; [reflexivity | now right]|].
    cbn [string sc]. destruct (exec _ []) as [[res|] re'] eqn:E; cbn [fst snd];
      [|split; [reflexivity | now left]].
    destruct (result_length res =? 0); cbn [fst snd]; [split; [reflexivity | now left]|].
    rewrite (exec_nil_match _ _ _ E). rewrite A by reflexivity.
    split; [reflexivity | now left].
  - split; [reflexivity | now left].
  - unfold consumeString, consumeStringFast. cbn [peek sc charCount charIndex Z.leb Z.compare].
    destruct stringToConsume; cbn; split; auto.
  - unfold consumeStringFast. cbn [peek sc charCount charIndex Z.leb Z.compare].
    destruct stringToConsume; cbn; split; auto.
  - unfold consumeUntilMatch. destruct (negb (global regex)); [split; [reflexivity | now right]|].
    cbn [string sc]. destruct (exec _ []) as [[res|] re'] eqn:E; cbn [fst snd];
      [|split; [reflexivity | now left]].
    match goal with
    | |- context [if ?b then _ else _] => destruct b
    end; cbn [fst snd]; [split; [reflexivity | now left]|].
    rewrite slice_nil. rewrite A by reflexivity. split; [reflexivity | now left].
  - unfold consumeUntilString. cbn [string sc].
    destruct (_ <=? 0); cbn [fst snd]; [split; [reflexivity | now left]|].
    rewrite slice_nil. rewrite A by reflexivity. split; [reflexivity | now left].
Qed.

Lemma empty_input_consumes_nothing_witness :
  snd (run (ConsumeUntilString (js "x"%string)) (new_StringScanner []))
  = new_StringScanner []
  /\ (fst (run (ConsumeUntilString (js "x"%string)) (new_StringScanner []))
      = Return (Str emptyString)
      \/ throws (fst (run (ConsumeUntilString (js "x"%string))
                        (new_StringScanner []))) = true).
Proof.
  apply empty_input_consumes_nothing; [reflexivity | exact I].
Defined.

(** ** Scanning ahead for a pattern *)

Section ScanAhead.

Variable r : RegExp.
Variable s : jsstring.
Hypothesis not_sticky : sticky r = false.
Hypothesis not_unicode : fullUnicode r = false.

Lemma exec_loop_search : forall fuel i0,
  (length s + 2 <= fuel + i0)%nat ->
  match exec_loop r s fuel i0 with
  | Some (i, e) => first_match r s i0 i e
  | None => no_match r s i0
  end.
Proof.
  induction fuel as [|fuel IH]; intros i0 H.
  - simpl. intros j Hj. lia.
  - cbn [exec_loop]. destruct (Nat.ltb_spec (length s) i0).
    + intros j Hj. lia.
    + destruct (matcher r s i0) as [e|] eqn:M.
      * repeat split; try lia; auto.
      * rewrite not_sticky. unfold AdvanceStringIndex. rewrite not_unicode.
        specialize (IH (i0 + 1)%nat ltac:(lia)).
        destruct (exec_loop r s fuel (i0 + 1)) as [[i e]|].
        -- destruct IH as (B & Me & N). repeat split; try lia; auto.
           intros j Hj. destruct (Nat.eq_dec j i0) as [->|]; [exact M|].
           apply N. lia.
        -- intros j Hj. destruct (Nat.eq_dec j i0) as [->|]; [exact M|].
           apply IH. lia.
Qed.

Lemma first_match_unique b i e i' e' :
  first_match r s b i e -> first_match r s b i' e' -> i = i' /\ e = e'.
Proof.
  intros (B & M & N) (B' & M' & N').
  assert (i = i').
  { destruct (Nat.lt_trichotomy i i') as [L|[E|L]]; [|exact E|].
    - rewrite (N' i) in M by lia. discriminate.
    - rewrite (N i') in M' by lia. discriminate. }
  subst. split; [reflexivity | congruence].
Qed.

End ScanAhead.

Lemma slice_forward s b i :
  0 <= b -> b < i -> i <= Z.of_nat (length s) ->
  slice s (Some b) (Some i) = substring s (Z.to_nat b) (Z.to_nat i).
Proof.
  intros. unfold slice. cbn [ToIntegerOrInfinity].
  destruct (Z.ltb_spec b 0); [lia|]. destruct (Z.ltb_spec i 0); [lia|].
  rewrite !Z.min_l by lia.
  destruct (Z.leb_spec i b); [lia | reflexivity].
Qed.

Lemma consumeUntilMatch_exec (s : jsstring) (p : Z) (regex : RegExp) :
  0 <= p < charCount (new_StringScanner s) ->
  Z.of_nat (length s) < 2 ^ 53 ->
  global regex = true -> sticky regex = false ->
  consumeUntilMatch regex (scanner_at s p)
  = match exec_loop regex s (S (S (length s)))
            (byteOffset (code_points s) (Z.to_nat p)) with
    | None => (Return emptyString, set_lastIndex regex (Some 0), scanner_at s p)
    | Some (i, e) =>
        if (i =? byteOffset (code_points s) (Z.to_nat p))%nat
        then (Return emptyString, set_lastIndex regex (Some (Z.of_nat e)),
              scanner_at s p)
        else
          let result :=
            slice s (Some (Z.of_nat (byteOffset (code_points s) (Z.to_nat p))))
                  (Some (Z.of_nat i)) in
          (Return result, set_lastIndex regex (Some (Z.of_nat e)),
           advance (_charLength (scanner_at s p) result) (scanner_at s p))
    end.
Proof.
  intros Hp Hlen G St.
  assert (Hle : (byteOffset (code_points s) (Z.to_nat p) <= length s)%nat).
  { rewrite <- (concat_code_points s) at 2. apply byteOffset_le. }
  unfold consumeUntilMatch. rewrite G. cbn [negb].
  cbn [scanner_at set_charIndex charsToBytes charIndex string].
  rewrite get_charsToBytes by assumption. rewrite new_string.
  fold (scanner_at s p).
  set (b := byteOffset (code_points s) (Z.to_nat p)) in *.
  unfold exec. cbn [global sticky lastIndex set_lastIndex groups].
  rewrite G, St. cbn [negb andb orb].
  assert (Hto : ToLength (Some (Z.of_nat b)) = Z.of_nat b).
  { unfold ToLength. cbn [ToIntegerOrInfinity]. lia. }
  rewrite Hto, Nat2Z.id.
  destruct (Z.ltb_spec (Z.of_nat (length s)) (Z.of_nat b)); [lia|].
  assert (EL : forall fuel i0,
             exec_loop (set_lastIndex regex (Some (Z.of_nat b))) s fuel i0
             = exec_loop regex s fuel i0).
  { induction fuel as [|fuel IH]; intro i0; [reflexivity|].
    cbn [exec_loop matcher sticky fullUnicode set_lastIndex]. now rewrite IH. }
  rewrite EL.
  destruct (exec_loop regex s (S (S (length s))) b) as [[i e]|]; [|reflexivity].
  cbn [index].
  destruct (Nat.eqb_spec i b) as [->|Ne].
  - now rewrite Z.eqb_refl.
  - destruct (Z.eqb_spec (Z.of_nat i) (Z.of_nat b)); [lia | reflexivity].
Qed.

(** [consumeUntilMatch] before the end of input (inputs shorter than 2^53
    units), for a pattern with the global flag and neither the sticky nor a
    unicode flag: with no match from the position's storage offset on, it
    returns the empty string, [lastIndex] 0 and the scanner unchanged; with
    the first match right at the position, the empty string and the scanner
    unchanged; with the first match where a later character starts, the text
    in between, the position then on that character; [lastIndex] is the end
    of the match in both. *)
Theorem consumeUntilMatch_scan_ahead (s : jsstring) (p : Z) (regex : RegExp) :
  0 <= p < charCount (new_StringScanner s) ->
  Z.of_nat (length s) < 2 ^ 53 ->
  global regex = true -> sticky regex = false -> fullUnicode regex = false ->
  (no_match regex s (Z.to_nat (byteIndexOf (scanner_at s p))) ->
   consumeUntilMatch regex (scanner_at s p)
   = (Return emptyString, set_lastIndex regex (Some 0), scanner_at s p))
  /\ (forall e,
      first_match regex s (Z.to_nat (byteIndexOf (scanner_at s p)))
        (Z.to_nat (byteIndexOf (scanner_at s p))) e ->
      consumeUntilMatch regex (scanner_at s p)
      = (Return emptyString, set_lastIndex regex (Some (Z.of_nat e)),
         scanner_at s p))
  /\ (forall q e,
      p < q <= charCount (new_StringScanner s) ->
      first_match regex s (Z.to_nat (byteIndexOf (scanner_at s p)))
        (Z.to_nat (byteIndexOf (scanner_at s q))) e ->
      consumeUntilMatch regex (scanner_at s p)
      = (Return (concat (firstn (Z.to_nat (q - p)) (chars_from s p))),
         set_lastIndex regex (Some (Z.of_nat e)), scanner_at s q)).
Proof.
  intros Hp Hlen G St U.
  rewrite (consumeUntilMatch_exec s p regex Hp Hlen G St).
  assert (Hb : forall q, byteIndexOf (scanner_at s q)
               = Z.of_nat (byteOffset (code_points s) (Z.to_nat q))).
  { intro q. unfold byteIndexOf, scanner_at. cbn [chars charIndex set_charIndex].
    now rewrite new_chars. }
  rewrite !Hb, Nat2Z.id.
  set (b := byteOffset (code_points s) (Z.to_nat p)) in *.
  pose proof (exec_loop_search regex s St U (S (S (length s))) b ltac:(lia)) as X.
  destruct (exec_loop regex s (S (S (length s))) b) as [[i e]|].
  - split; [|split].
    + intro No. destruct X as (B & M & _). rewrite (No i B) in M. discriminate.
    + intros e' FM. destruct (first_match_unique regex s b _ _ _ _ X FM) as [-> ->].
      now rewrite Nat.eqb_refl.
    + intros q e' Hq FM. rewrite Hb, Nat2Z.id in FM.
      destruct (first_match_unique regex s b _ _ _ _ X FM) as [-> ->].
      assert (Lt : (b < byteOffset (code_points s) (Z.to_nat q))%nat).
      { pose proof (byteOffset_add (code_points s) (Z.to_nat p)
                      (Z.to_nat (q - p))) as Ad.
        replace (Z.to_nat p + Z.to_nat (q - p))%nat with (Z.to_nat q) in Ad by lia.
        fold b in Ad. rewrite Ad.
        assert (NE : byteOffset (skipn (Z.to_nat p) (code_points s))
                       (Z.to_nat (q - p)) <> 0%nat).
        { unfold byteOffset. rewrite length_zero_iff_nil.
          rewrite new_charCount in *. apply range_nonempty; lia. }
        lia. }
      destruct (Nat.eqb_spec (byteOffset (code_points s) (Z.to_nat q)) b); [lia|].
      cbv zeta. subst b.
      replace (Z.to_nat q) with (Z.to_nat p + Z.to_nat (q - p))%nat by lia.
      rewrite slice_code_points.
      rewrite charLength_range, advance_scanner_at.
      rewrite length_firstn, length_skipn. rewrite new_charCount in *.
      unfold chars_from. do 2 f_equal. lia.
  - split; [|split].
    + reflexivity.
    + intros e FM. destruct FM as (B & M & _). rewrite (X b) in M by lia. discriminate.
    + intros q e Hq FM. destruct FM as (B & M & _).
      rewrite Hb, Nat2Z.id in *. rewrite (X _ B) in M. discriminate.
Qed.

Lemma consumeUntilMatch_scan_ahead_witness :
  consumeUntilMatch digits_global (scanner_at (js "abc123def"%string) 0)
  = (Return (concat (firstn (Z.to_nat (3 - 0))
                       (chars_from (js "abc123def"%string) 0))),
     set_lastIndex digits_global (Some (Z.of_nat 6)),
     scanner_at (js "abc123def"%string) 3).
Proof.
  refine (proj2 (proj2 (consumeUntilMatch_scan_ahead (js "abc123def"%string) 0
                          digits_global _ _ _ _ _)) 3 6%nat _ _).
  - rewrite new_charCount. vm_compute. split; [discriminate | reflexivity].
  - vm_compute. reflexivity.
  - reflexivity.
  - reflexivity.
  - reflexivity.
  - rewrite new_charCount. vm_compute. split; [reflexivity | discriminate].
  - repeat split.
    + vm_compute. apply le_0_n.
    + vm_compute. repeat constructor.
    + intros j Hj.
      assert (J : (j < 3)%nat) by (vm_compute in Hj; apply Hj).
      destruct j as [|[|[|j]]]; [reflexivity | reflexivity | reflexivity | lia].
Defined.

(** ** The processing instruction as JSON *)

Section Json.

Import ProcessingInstruction.

Variable value : Type.

Lemma get_set_same (o : object value) key v :
  get_property value (set_property value o key v) key = Some v.
Proof.
  induction o as [|[k w] o IH]; simpl.
  - now rewrite String.eqb_refl.
  - destruct (String.eqb k key) eqn:E; simpl; now rewrite E.
Qed.

Lemma get_set_other (o : object value) key key' v :
  key <> key' ->
  get_property value (set_property value o key v) key'
  = get_property value o key'.
Proof.
  intro Ne. induction o as [|[k w] o IH]; simpl.
  - destruct (String.eqb_spec key key'); [contradiction | reflexivity].
  - destruct (String.eqb_spec k key) as [->|]; simpl.
    + destruct (String.eqb_spec key key'); [contradiction | reflexivity].
    + destruct (String.eqb k key'); [reflexivity | exact IH].
Qed.

Lemma keys_prefix (o : object value) key v :
  firstn (length o) (map fst (set_property value o key v)) = map fst o.
Proof.
  induction o as [|[k w] o IH]; simpl; [reflexivity|].
  destruct (String.eqb k key); simpl; f_equal.
  - rewrite <- (length_map fst o). apply firstn_all.
  - exact IH.
Qed.

Lemma length_set_ge (o : object value) key v :
  (length o <= length (set_property value o key v))%nat.
Proof.
  induction o as [|[k w] o IH]; simpl; [lia|].
  destruct (String.eqb k key); simpl; lia.
Qed.

End Json.

(** [toJSON] of a processing instruction has the node's name under [name]
    and its content under [content] (the empty string when it was
    constructed without one); every other property is as [XmlNode]'s
    [toJSON] gives it, and the properties that one gives come first, in its
    order. *)
Theorem toJSON_fields (value : Type) (of_string : jsstring -> value)
    (XmlNode_toJSON : ProcessingInstruction.XmlProcessingInstruction
                      -> ProcessingInstruction.object value)
    (name : jsstring) (content : option jsstring) :
  let this := ProcessingInstruction.new_XmlProcessingInstruction name content in
  let json := ProcessingInstruction.toJSON value of_string XmlNode_toJSON this in
  ProcessingInstruction.get_property value json "name"%string = Some (of_string name)
  /\ ProcessingInstruction.get_property value json "content"%string
     = Some (of_string match content with Some c => c | None => [] end)
  /\ (forall key, key <> "name"%string -> key <> "content"%string ->
        ProcessingInstruction.get_property value json key
        = ProcessingInstruction.get_property value (XmlNode_toJSON this) key)
  /\ firstn (length (XmlNode_toJSON this)) (map fst json)
     = map fst (XmlNode_toJSON this).
Proof.
  cbv zeta. unfold ProcessingInstruction.toJSON, ProcessingInstruction.Object_assign.
  cbn [fold_left fst snd ProcessingInstruction.name ProcessingInstruction.content
       ProcessingInstruction.new_XmlProcessingInstruction].
  repeat split.
  - rewrite get_set_other by discriminate. apply get_set_same.
  - apply get_set_same.
  - intros key N1 N2. rewrite !get_set_other by congruence. reflexivity.
  - set (o := XmlNode_toJSON _).
    set (o1 := ProcessingInstruction.set_property value o "name"%string (of_string name)).
    pose proof (length_set_ge value o "name"%string (of_string name)) as L. fold o1 in L.
    rewrite <- (Nat.min_l _ _ L), <- firstn_firstn, keys_prefix.
    apply keys_prefix.
Qed.

(** ** Searching from the end of input *)

Lemma slice_prefix s m :
  0 < m <= Z.of_nat (length s) ->
  slice s None (Some m) = firstn (Z.to_nat m) s.
Proof.
  intro H. unfold slice, substring. cbn [ToIntegerOrInfinity].
  destruct (Z.ltb_spec 0 0); [lia|]. destruct (Z.ltb_spec m 0); [lia|].
  rewrite Z.min_l, Z.min_l by lia.
  destruct (Z.leb_spec m 0); [lia|]. simpl. now rewrite Nat.sub_0_r.
Qed.

Lemma indexOf_le s t pos : indexOf s t pos <= Z.of_nat (length s).
Proof.
  unfold indexOf.
  set (start := Z.to_nat _).
  pose proof (StringIndexOf_spec t (skipn start s) start) as H.
  destruct (StringIndexOf t (skipn start s) start) as [k|]; [|lia].
  destruct H as (B & _). rewrite length_skipn in B. lia.
Qed.

(** [consumeUntilString(t)] at the end of input searches from offset 0
    ([charsToBytes[charCount]] is [undefined]): it returns the input up to
    the first occurrence of [t] anywhere in it, or the empty string when [t]
    occurs at offset 0 or not at all, and the position stays at the end. *)
Theorem consumeUntilString_at_end (s t : jsstring) :
  let sc := scanner_at s (charCount (new_StringScanner s)) in
  let m := indexOf s t None in
  first_occurrence s t 0 m
  /\ consumeUntilString t sc
     = (if m <=? 0 then emptyString else firstn (Z.to_nat m) s, sc).
Proof.
  cbv zeta. split.
  - apply (indexOf_first_occurrence s t 0). lia.
  - unfold consumeUntilString.
    cbn [scanner_at set_charIndex charsToBytes charIndex string].
    rewrite get_charsToBytes_out by lia. rewrite new_string.
    pose proof (indexOf_le s t None).
    destruct (Z.leb_spec (indexOf s t None) 0); [reflexivity|].
    rewrite slice_prefix by lia. f_equal.
    apply advance_at_end; [apply charLength_nonneg | reflexivity].
Qed.

(** ** Rewinding *)

(** A rewind undoes an advance that stayed within the input: [reset(-k)]
    after [advance(k)], for [k > 0]. *)
Theorem rewind_undoes_advance (s : jsstring) (p k : Z) :
  0 <= p -> 0 < k -> p + k <= charCount (new_StringScanner s) ->
  reset (- k) (advance k (scanner_at s p)) = scanner_at s p.
Proof.
  intros Hp Hk Hn. unfold reset, advance.
  cbn [scanner_at set_charIndex charIndex charCount].
  destruct (Z.leb_spec 0 (- k)); [lia|].
  unfold scanner_at, set_charIndex. f_equal. lia.
Qed.

Lemma rewind_undoes_advance_witness :
  reset (- 2) (advance 2 (scanner_at (js "abcd"%string) 1))
  = scanner_at (js "abcd"%string) 1.
Proof.
  apply (rewind_undoes_advance (js "abcd"%string) 1 2); [lia | lia | rewrite new_charCount; vm_compute; discriminate].
Defined.
